(** * Retrieval engine of advo-chat: chunker, embeddings manager, ranking

    A shallow embedding of [src/utils/rag.ts] (chunking, cosine ranking,
    ingestion and search) and [src/utils/embeddings.ts] (the hash-based
    provider and the embeddings manager with its cache and fallback),
    followed by the properties of the specification that can be settled
    on them.

    Conventions of the embedding:
    - a JavaScript string is the list of its code units; the model covers
      the code units 0..255, for which white space and lower-casing are
      written out in full;
    - indices and sizes are integers ([Z]); the one test of the chunker
      that multiplies by 0.7 is evaluated in binary64, as its outcome at
      the threshold depends on the rounding of the product; the [number]s
      held by embedding vectors are idealised as real numbers ([R]);
    - a loop that the source does not bound is run with fuel, [None] meaning
      that the fuel ran out before the loop condition became false;
    - a call that may throw returns an [Outcome]. *)

From Stdlib Require Import ZArith Reals Lra Lia Ascii.
From Stdlib Require SpecFloat.
From stdpp Require Import base option list sorting strings gmap pretty.

Local Open Scope Z_scope.

(** ** JavaScript strings *)

Module JsString.

Definition str : Type := list ascii.

Definition of_string (s : string) : str := String.list_ascii_of_string s.

(** [s.length] *)
Definition len (s : str) : Z := Z.of_nat (length s).

(** Relative index of [String.prototype.slice] and
    [Array.prototype.slice]: a negative argument counts from the end,
    and the result is clamped to [0, len]. *)
Definition relative_index (n i : Z) : Z :=
  if i <? 0 then Z.max (n + i) 0 else Z.min i n.

(** [xs.slice(from, to)], for strings and arrays alike. *)
Definition slice {A} (xs : list A) (from to : Z) : list A :=
  let n := Z.of_nat (length xs) in
  let k := relative_index n from in
  let final := relative_index n to in
  take (Z.to_nat (Z.max (final - k) 0)) (drop (Z.to_nat k) xs).

(** [s.substring(0, n)] for a constant [n >= 0]. *)
Definition substring0 (s : str) (n : Z) : str :=
  take (Z.to_nat (Z.min (Z.max n 0) (len s))) s.

(** [s.lastIndexOf(c)] for a one-character search string: the index of
    the last occurrence, [-1] when there is none. *)
Fixpoint lastIndexOf_from (c : ascii) (s : str) (i found : Z) : Z :=
  match s with
  | [] => found
  | x :: r => lastIndexOf_from c r (i + 1) (if Ascii.eqb x c then i else found)
  end.

Definition lastIndexOf (s : str) (c : ascii) : Z := lastIndexOf_from c s 0 (-1).

(** [c.charCodeAt(0)] *)
Definition charCode (c : ascii) : Z := Z.of_N (N_of_ascii c).

(** White space of [\s] and of [trim()] among the code units 0..255:
    TAB, LF, VT, FF, CR, SPACE and NBSP. *)
Definition is_white_space (c : ascii) : bool :=
  let n := charCode c in
  ((9 <=? n) && (n <=? 13)) || (n =? 32) || (n =? 160).

(** [s.trim()] *)
Fixpoint trimStart (s : str) : str :=
  match s with
  | [] => []
  | c :: r => if is_white_space c then trimStart r else s
  end.
Definition trimEnd (s : str) : str := rev (trimStart (rev s)).
Definition trim (s : str) : str := trimEnd (trimStart s).

(** [s.toLowerCase()] on the code units 0..255: A-Z and the accented
    capitals U+00C0..U+00DE except the multiplication sign U+00D7. *)
Definition lower_char (c : ascii) : ascii :=
  let n := charCode c in
  if ((65 <=? n) && (n <=? 90))
     || ((192 <=? n) && (n <=? 222) && negb (n =? 215))
  then ascii_of_N (Z.to_N (n + 32)) else c.

Definition toLowerCase (s : str) : str := map lower_char s.

(** [s.split(/\s+/)]: the pieces between maximal runs of white space; a
    run at either end of the string leaves an empty piece there, and the
    empty string gives one empty piece. [in_sep] tells that the previous
    code unit was white space. *)
Fixpoint split_ws_from (in_sep : bool) (s : str) : list str :=
  match s with
  | [] => [[]]
  | c :: r =>
      if is_white_space c
      then (if in_sep then split_ws_from true r else [] :: split_ws_from true r)
      else match split_ws_from false r with
           | w :: ws => (c :: w) :: ws
           | [] => [[c]]
           end
  end.

Definition split_ws (s : str) : list str := split_ws_from false s.

(** Decimal digits of a length, as in a template literal. *)
Definition of_length (s : str) : str := of_string (pretty (Z.to_N (len s))).

End JsString.

(** ** Numbers in binary64, for the threshold test of the chunker *)

Module Number.

Definition prec : Z := 53.
Definition emax : Z := 1024.

(** The [number] nearest to an integer; integers below 2^53 in absolute
    value are exact. *)
Definition of_Z (z : Z) : SpecFloat.spec_float :=
  SpecFloat.binary_normalize prec emax z 0 false.

(** The literal [0.7]: 0x1.6666666666666p-1. *)
Definition seven_tenths : SpecFloat.spec_float :=
  SpecFloat.S754_finite false 6305039478318694 (-53).

Definition mul (x y : SpecFloat.spec_float) : SpecFloat.spec_float :=
  SpecFloat.SFmul prec emax x y.

Definition add (x y : SpecFloat.spec_float) : SpecFloat.spec_float :=
  SpecFloat.SFadd prec emax x y.

(** [x > y] *)
Definition gtb (x y : SpecFloat.spec_float) : bool := SpecFloat.SFltb y x.

End Number.

(** ** The chunker ([chunkText] of rag.ts) *)

Module Chunker.
Import JsString.

(** [lastBreak > start + chunkSize * 0.7] *)
Definition past_threshold (lastBreak start chunkSize : Z) : bool :=
  Number.gtb (Number.of_Z lastBreak)
    (Number.add (Number.of_Z start)
       (Number.mul (Number.of_Z chunkSize) Number.seven_tenths)).

(** [end] of the window that begins at [start]. *)
Definition window_end (text : str) (chunkSize start : Z) : Z :=
  Z.min (start + chunkSize) (len text).

(** [lastBreak] of a window's raw chunk. *)
Definition last_break (chunk : str) : Z :=
  let lastPeriod := lastIndexOf chunk "."%char in
  let lastQuestion := lastIndexOf chunk "?"%char in
  let lastExclamation := lastIndexOf chunk "!"%char in
  Z.max (Z.max lastPeriod lastQuestion) lastExclamation.

(** The value of [chunk] when it is pushed, before [trim()]. *)
Definition window_chunk (text : str) (chunkSize start : Z) : str :=
  let end_ := window_end text chunkSize start in
  let chunk := slice text start end_ in
  if end_ <? len text then
    let lastBreak := last_break chunk in
    if past_threshold lastBreak start chunkSize
    then slice chunk 0 (lastBreak + 1)
    else chunk
  else chunk.

(** The variables of the loop. *)
Record walk : Type := Walk { start : Z; chunks : list str }.

(** One turn of the [while] body. *)
Definition chunk_step (text : str) (chunkSize overlap : Z) (w : walk) : walk :=
  {| start := window_end text chunkSize (start w) - overlap;
     chunks := chunks w ++ [trim (window_chunk text chunkSize (start w))] |}.

(** [while (start < text.length) { ... }] *)
Fixpoint chunk_loop (fuel : nat) (text : str) (chunkSize overlap : Z)
    (w : walk) : option (list str) :=
  match fuel with
  | O => None
  | S fuel' =>
      if start w <? len text
      then chunk_loop fuel' text chunkSize overlap (chunk_step text chunkSize overlap w)
      else Some (chunks w)
  end.

(** The state after [n] turns of the body, whether or not the loop
    condition still holds. *)
Definition walk_after (n : nat) (text : str) (chunkSize overlap : Z) : walk :=
  Nat.iter n (chunk_step text chunkSize overlap) (Walk 0 []).

(** [chunks.filter(chunk => chunk.length > 50)] *)
Definition long_enough (chunk : str) : bool := 50 <? len chunk.

Definition chunkText (fuel : nat) (text : str) (chunkSize overlap : Z)
    : option (list str) :=
  filter (λ c, long_enough c = true) <$> chunk_loop fuel text chunkSize overlap (Walk 0 []).

(** The defaults of the signature. *)
Definition default_chunkSize : Z := 1000.
Definition default_overlap : Z := 200.

End Chunker.

(** ** Calls that may throw *)

Definition Error : Type := JsString.str.

Inductive Outcome (A : Type) : Type :=
  | Returns (a : A)
  | Throws (e : Error).
Arguments Returns {A} a.
Arguments Throws {A} e.

(** ** The hash-based provider ([SimpleEmbeddings] of embeddings.ts) *)

Module SimpleEmbeddings.
Import JsString.

Definition name : str := of_string "simple".
Definition dimensions : Z := 384.

(** Conversion of a number to a signed 32-bit integer, as the bitwise
    operators do to their operands and results. *)
Definition ToInt32 (z : Z) : Z := (z + 2 ^ 31) mod 2 ^ 32 - 2 ^ 31.

(** [a << n] *)
Definition shl (a n : Z) : Z := ToInt32 (Z.shiftl (ToInt32 a) n).

(** [a & b] *)
Definition band (a b : Z) : Z := ToInt32 (Z.land (ToInt32 a) (ToInt32 b)).

(** The reducer [(a, b) => { a = ((a << 5) - a) + b.charCodeAt(0); return a & a; }] *)
Definition hash_step (a : Z) (b : ascii) : Z :=
  let a' := (shl a 5 - a) + charCode b in
  band a' a'.

(** [word.split('').reduce(..., 0)] *)
Definition hash (word : str) : Z := fold_left hash_step word 0.

(** [Math.abs(hash) % this.dimensions] *)
Definition position (word : str) : Z := Z.rem (Z.abs (hash word)) dimensions.

(** [embedding[position] += 1]. The index is always inside the array
    (lemma [position_range]), so the array is never extended. *)
Definition bump (embedding : list Z) (word : str) : list Z :=
  alter Z.succ (Z.to_nat (position word)) embedding.

(** The array after [words.forEach(...)]: the number of words hashed to
    each position. The entries are integers, exact as [number]s. *)
Definition counts (text : str) : list Z :=
  let words := split_ws (toLowerCase text) in
  fold_left bump words (replicate (Z.to_nat dimensions) 0).

(** [embedding.reduce((sum, val) => sum + val * val, 0)] *)
Definition sum_squares (embedding : list Z) : Z :=
  fold_left (λ sum val, sum + val * val) embedding 0.

Definition magnitude (embedding : list Z) : R := sqrt (IZR (sum_squares embedding)).

(** [embedding.map(val => val / magnitude)] *)
Definition generateEmbeddings (text : str) : list R :=
  let embedding := counts text in
  map (λ val, (IZR val / magnitude embedding)%R) embedding.

End SimpleEmbeddings.

(** ** Providers and the manager ([EmbeddingsManager] of embeddings.ts) *)

Module EmbeddingsManager.
Import JsString.

(** The classes that implement [EmbeddingProvider], with the arguments
    of their constructors. *)
Inductive EmbeddingProvider : Type :=
  | OpenAIEmbeddings (apiKey model : str)
  | CohereEmbeddings (apiKey model : str)
  | LocalEmbeddings (model : str)
  | SimpleEmbeddings.

Definition name (p : EmbeddingProvider) : str :=
  match p with
  | OpenAIEmbeddings _ _ => of_string "openai"
  | CohereEmbeddings _ _ => of_string "cohere"
  | LocalEmbeddings _ => of_string "local"
  | SimpleEmbeddings => SimpleEmbeddings.name
  end.

Definition dimensions (p : EmbeddingProvider) : Z :=
  match p with
  | OpenAIEmbeddings _ _ => 1536
  | CohereEmbeddings _ _ => 1024
  | LocalEmbeddings _ => 384
  | SimpleEmbeddings => SimpleEmbeddings.dimensions
  end.

(** What the vendor or the local model answers to a request is outside
    the program: the outcome of the request [text], sent after the
    requests [calls], so that a vendor may fail once and answer later. *)
Definition Network : Type := EmbeddingProvider → list str → str → Outcome (list R).

(** [provider.generateEmbeddings(text)] *)
Definition generate (net : Network) (p : EmbeddingProvider) (calls : list str)
    (text : str) : Outcome (list R) :=
  match p with
  | SimpleEmbeddings => Returns (SimpleEmbeddings.generateEmbeddings text)
  | _ => net p calls text
  end.

(** The fields of the manager. *)
Record t : Type := Manager {
  provider : EmbeddingProvider;
  cache : gmap str (list R)
}.

(** [new EmbeddingsManager(provider)] *)
Definition new (p : EmbeddingProvider) : t := Manager p ∅.

(** The template literal of [cacheKey]. *)
Definition cacheKey (text : str) : str :=
  substring0 text 100 ++ of_string "_" ++ of_length text.

(** [getEmbeddings(text, useCache)]. [calls] lists the texts handed to
    the active provider so far; the result is the returned vector, the
    manager and the calls afterwards. The fallback provider built in the
    handler is not the active one and its call is not listed. *)
Definition getEmbeddings (net : Network) (m : t) (calls : list str)
    (text : str) (useCache : bool) : list R * t * list str :=
  let key := cacheKey text in
  match (if useCache then cache m !! key else None) with
  | Some cached => (cached, m, calls)
  | None =>
      match generate net (provider m) calls text with
      | Returns embeddings =>
          (embeddings,
           if useCache then Manager (provider m) (<[key := embeddings]> (cache m)) else m,
           calls ++ [text])
      | Throws _ =>
          (SimpleEmbeddings.generateEmbeddings text, m, calls ++ [text])
      end
  end.

Definition getDimensions (m : t) : Z := dimensions (provider m).
Definition getProviderName (m : t) : str := name (provider m).
Definition clearCache (m : t) : t := Manager (provider m) ∅.

End EmbeddingsManager.

(** ** Records of the database (db/index.ts) *)

Module DocumentChunk.
Import JsString.
Record t : Type := Make {
  id : str;
  documentId : str;
  content : str;
  embeddings : option (list R);
  chunkIndex : Z;
  createdAt : Z
}.
End DocumentChunk.

Module UserDocument.
Import JsString.
Record t : Type := Make {
  id : str;
  title : str;
  content : str;
  source : str
}.
End UserDocument.

(** ** Ingestion and search (rag.ts) *)

Module Rag.
Import JsString.

(** The [for] loop of [calculateCosineSimilarity]:
    [dotProduct], [normA] and [normB] after the last index. *)
Definition similarity_sums (vecA vecB : list R) : R * R * R :=
  fold_left
    (λ acc ab, let '(dotProduct, normA, normB) := acc in
               (dotProduct + ab.1 * ab.2, normA + ab.1 * ab.1, normB + ab.2 * ab.2)%R)
    (zip vecA vecB) (0, 0, 0)%R.

Definition calculateCosineSimilarity (vecA vecB : list R) : R :=
  if decide (length vecA = length vecB) then
    let '(dotProduct, normA, normB) := similarity_sums vecA vecB in
    if Req_dec_T normA 0 then 0%R
    else if Req_dec_T normB 0 then 0%R
    else (dotProduct / (sqrt normA * sqrt normB))%R
  else 0%R.

(** [xs.sort(compare)]: a stable sort; [a] stays before [b] unless
    [compare(a, b) > 0]. The result is built from the right, each element
    being put in front of the first one it may precede. *)
Fixpoint sort_insert {A} (compare : A → A → R) (x : A) (sorted : list A) : list A :=
  match sorted with
  | [] => [x]
  | y :: rest =>
      if Rle_dec (compare x y) 0 then x :: sorted
      else y :: sort_insert compare x rest
  end.

Definition sort {A} (compare : A → A → R) (xs : list A) : list A :=
  foldr (sort_insert compare) [] xs.

(** What lies outside the program: the embedding vendors, the faults of
    the repository, the identifiers drawn and the clock. The last three
    are indexed by the number of effects that happened before. *)
Record World : Type := {
  network : EmbeddingsManager.Network;
  db_fault : nat → option Error;
  randomUUID : nat → str;
  clock : nat → Z
}.

(** The module-level manager, the calls made to its provider, the table
    [db.documentChunks] in the order of its primary key [id], and the
    number of effects so far. *)
Record State : Type := {
  embeddingsManager : option EmbeddingsManager.t;
  calls : list str;
  documentChunks : list DocumentChunk.t;
  tick : nat
}.

Definition set_manager (m : EmbeddingsManager.t) (calls' : list str) (s : State) : State :=
  {| embeddingsManager := Some m; calls := calls';
     documentChunks := documentChunks s; tick := tick s |}.

Definition set_rows (rows : list DocumentChunk.t) (s : State) : State :=
  {| embeddingsManager := embeddingsManager s; calls := calls s;
     documentChunks := rows; tick := tick s |}.

Definition next_tick (s : State) : State :=
  {| embeddingsManager := embeddingsManager s; calls := calls s;
     documentChunks := documentChunks s; tick := S (tick s) |}.

(** Computations on the state that return or throw. *)
Definition M (A : Type) : Type := State → Outcome A * State.

Definition ret {A} (a : A) : M A := λ s, (Returns a, s).

Definition throw {A} (e : Error) : M A := λ s, (Throws e, s).

Definition bind {A B} (m : M A) (k : A → M B) : M B :=
  λ s, match m s with
       | (Returns a, s') => k a s'
       | (Throws e, s') => (Throws e, s')
       end.

(** [try { body } catch (error) { handler }] *)
Definition try_catch {A} (body : M A) (handler : Error → M A) : M A :=
  λ s, match body s with
       | (Returns a, s') => (Returns a, s')
       | (Throws e, s') => handler e s'
       end.

Notation "x <- m ;; k" := (bind m (λ x, k))
  (at level 100, m at next level, right associativity).

(** [chunkText] as its callers see it. An array holds a bounded number
    of elements (2^32 - 1 by the language, fewer in an engine):
    [chunks.push] throws a RangeError once the array holds [array_limit]
    chunks. So the loop ends in one of two ways: its condition fails, or
    a push throws. [room] is the number of pushes left. (An engine that
    runs out of memory before the limit ends the program; that is no
    outcome of the function.) *)
Fixpoint chunk_loop_within (room : nat) (text : str) (chunkSize overlap : Z)
    (w : Chunker.walk) : Outcome (list str) :=
  if Chunker.start w <? len text then
    match room with
    | O => Throws (of_string "RangeError: Invalid array length")
    | S room' =>
        chunk_loop_within room' text chunkSize overlap
          (Chunker.chunk_step text chunkSize overlap w)
    end
  else Returns (Chunker.chunks w).

Definition chunkText_within (array_limit : nat) (text : str) (chunkSize overlap : Z)
    : Outcome (list str) :=
  match chunk_loop_within array_limit text chunkSize overlap (Chunker.Walk 0 []) with
  | Returns chunks => Returns (filter (λ c, Chunker.long_enough c = true) chunks)
  | Throws e => Throws e
  end.

Section Operations.
Variable w : World.

(** Order of the keys of the table: strings compare by code units. *)
Fixpoint key_ltb (a b : str) : bool :=
  match a, b with
  | [], [] => false
  | [], _ :: _ => true
  | _ :: _, [] => false
  | x :: a', y :: b' =>
      (charCode x <? charCode y) || ((charCode x =? charCode y) && key_ltb a' b')
  end.

Fixpoint insert_row (row : DocumentChunk.t) (rows : list DocumentChunk.t)
    : list DocumentChunk.t :=
  match rows with
  | [] => [row]
  | r :: rest =>
      if key_ltb (DocumentChunk.id row) (DocumentChunk.id r)
      then row :: rows
      else r :: insert_row row rest
  end.

(** An operation of the repository: it throws when the world says so,
    without touching the table, and runs on the table otherwise. *)
Definition db_operation {A} (run : list DocumentChunk.t → Outcome (A * list DocumentChunk.t))
    : M A :=
  λ s, match db_fault w (tick s) with
       | Some e => (Throws e, next_tick s)
       | None =>
           match run (documentChunks s) with
           | Returns (a, rows) => (Returns a, next_tick (set_rows rows s))
           | Throws e => (Throws e, next_tick s)
           end
       end.

(** [db.documentChunks.where('documentId').equals(id).delete()] *)
Definition delete_where_documentId (id : str) : M unit :=
  db_operation (λ rows,
    Returns ((), filter (λ r, DocumentChunk.documentId r ≠ id) rows)).

(** [db.documentChunks.add(row)]: the key must be new. *)
Definition add (row : DocumentChunk.t) : M unit :=
  db_operation (λ rows,
    if decide (DocumentChunk.id row ∈ map DocumentChunk.id rows)
    then Throws (of_string "ConstraintError")
    else Returns ((), insert_row row rows)).

(** [db.documentChunks.toArray()] *)
Definition toArray : M (list DocumentChunk.t) :=
  db_operation (λ rows, Returns (rows, rows)).

(** [crypto.randomUUID()] and [new Date()] *)
Definition fresh_uuid : M str := λ s, (Returns (randomUUID w (tick s)), next_tick s).
Definition new_Date : M Z := λ s, (Returns (clock w (tick s)), next_tick s).

(** [generateEmbeddings(text)] of rag.ts. When no manager is set,
    [initializeEmbeddings('simple')] sets one on the hash-based
    provider; that path of [createEmbeddingsManager] cannot throw. *)
Definition generateEmbeddings (text : str) : M (list R) :=
  λ s,
    let m := match embeddingsManager s with
             | Some m => m
             | None => EmbeddingsManager.new EmbeddingsManager.SimpleEmbeddings
             end in
    let '(embeddings, m', calls') :=
      EmbeddingsManager.getEmbeddings (network w) m (calls s) text true in
    (Returns embeddings, set_manager m' calls' s).

(** The [for] loop of [processDocument], from index [i]. *)
Fixpoint store_chunks (documentId : str) (chunks : list str) (i : Z) : M unit :=
  match chunks with
  | [] => ret ()
  | chunk :: rest =>
      embeddings <- generateEmbeddings chunk ;;
      id <- fresh_uuid ;;
      createdAt <- new_Date ;;
      _ <- add (DocumentChunk.Make id documentId chunk (Some embeddings) i createdAt) ;;
      store_chunks documentId rest (i + 1)
  end.

(** The body of the [try] of [processDocument] once [chunkText] has
    returned [chunks]. *)
Definition ingest (documentId : str) (chunks : list str) : M unit :=
  _ <- delete_where_documentId documentId ;;
  store_chunks documentId chunks 0.

(** [processDocument(document)]: [chunkText] runs inside the [try],
    before anything touches the table, and the handler throws the error
    again. *)
Definition processDocument (array_limit : nat) (document : UserDocument.t) : M unit :=
  try_catch
    (match chunkText_within array_limit (UserDocument.content document)
             Chunker.default_chunkSize Chunker.default_overlap with
     | Throws e => throw e
     | Returns chunks => ingest (UserDocument.id document) chunks
     end)
    (λ error, throw error).

(** The similarity given to a stored chunk. *)
Definition similarity (queryEmbedding : list R) (chunk : DocumentChunk.t) : R :=
  match DocumentChunk.embeddings chunk with
  | Some embeddings => calculateCosineSimilarity queryEmbedding embeddings
  | None => 0%R
  end.

(** The value returned by the [try] of [searchChunks]. *)
Definition rank (queryEmbedding : list R) (allChunks : list DocumentChunk.t)
    (limit : Z) : list DocumentChunk.t :=
  let chunksWithSimilarity :=
    map (λ chunk, (chunk, similarity queryEmbedding chunk)) allChunks in
  map fst
    (slice (sort (λ a b, (b.2 - a.2)%R) chunksWithSimilarity) 0 limit).

(** [searchChunks(query, limit)] *)
Definition searchChunks (query : str) (limit : Z) : M (list DocumentChunk.t) :=
  try_catch
    (queryEmbedding <- generateEmbeddings query ;;
     allChunks <- toArray ;;
     ret (rank queryEmbedding allChunks limit))
    (λ error, ret []).

End Operations.

End Rag.

(** ** The factory of managers ([createEmbeddingsManager] of embeddings.ts) *)

Module Factory.
Import JsString.

Inductive ProviderType : Type := openai | cohere | local | simple.

(** [!apiKey]: the key is undefined or the empty string. *)
Definition missing (apiKey : option str) : bool :=
  match apiKey with
  | Some (_ :: _) => false
  | _ => true
  end.

(** A parameter with a default value: the default replaces [undefined]
    only. *)
Definition or_default (argument : option str) (default : str) : str :=
  match argument with
  | Some value => value
  | None => default
  end.

(** [createEmbeddingsManager(providerType, apiKey, model)]. [loads] tells
    whether [initialize()] of the local provider succeeds for a model. *)
Definition createEmbeddingsManager (loads : str → bool) (providerType : ProviderType)
    (apiKey model : option str) : Outcome EmbeddingsManager.t :=
  match providerType with
  | openai =>
      if missing apiKey then Throws (of_string "OpenAI API key required")
      else Returns (EmbeddingsManager.new
             (EmbeddingsManager.OpenAIEmbeddings (or_default apiKey [])
                (or_default model (of_string "text-embedding-3-small"))))
  | cohere =>
      if missing apiKey then Throws (of_string "Cohere API key required")
      else Returns (EmbeddingsManager.new
             (EmbeddingsManager.CohereEmbeddings (or_default apiKey [])
                (or_default model (of_string "embed-english-v3.0"))))
  | local =>
      let name := or_default model (of_string "sentence-transformers/all-MiniLM-L6-v2") in
      if loads name
      then Returns (EmbeddingsManager.new (EmbeddingsManager.LocalEmbeddings name))
      else Throws (of_string "Local embeddings not available")
  | simple => Returns (EmbeddingsManager.new EmbeddingsManager.SimpleEmbeddings)
  end.

(** The name under which a manager of that type reports itself. *)
Definition type_name (providerType : ProviderType) : str :=
  match providerType with
  | openai => of_string "openai"
  | cohere => of_string "cohere"
  | local => of_string "local"
  | simple => of_string "simple"
  end.

End Factory.

(** ** The rest of rag.ts: initialisation, context, batch ingestion *)

Module Engine.
Import JsString.

(** [initializeEmbeddings(providerType, apiKey, model)]: the manager made
    by the factory or, when the factory throws, the one of
    [createEmbeddingsManager('simple')]. *)
Definition initializeEmbeddings (loads : str → bool) (providerType : Factory.ProviderType)
    (apiKey model : option str) : Rag.M unit :=
  λ s,
    match Factory.createEmbeddingsManager loads providerType apiKey model with
    | Returns manager => (Returns (), Rag.set_manager manager (Rag.calls s) s)
    | Throws _ =>
        (Returns (),
         Rag.set_manager (EmbeddingsManager.new EmbeddingsManager.SimpleEmbeddings)
           (Rag.calls s) s)
    end.

(** [getEmbeddingsManager()] *)
Definition getEmbeddingsManager (s : Rag.State) : option EmbeddingsManager.t :=
  Rag.embeddingsManager s.

(** The database as the functions below see it: the state of the chunk
    side and the table [db.userDocuments], in the order of its key. *)
Record Db : Type := {
  chunk_side : Rag.State;
  userDocuments : list UserDocument.t
}.

(** Computations on the database that return or throw. *)
Definition D (A : Type) : Type := Db → Outcome A * Db.

Definition lift {A} (m : Rag.M A) : D A :=
  λ d, let '(r, s') := m (chunk_side d) in
       (r, {| chunk_side := s'; userDocuments := userDocuments d |}).

Definition ret {A} (a : A) : D A := λ d, (Returns a, d).

Definition throw {A} (e : Error) : D A := λ d, (Throws e, d).

Definition bind {A B} (m : D A) (k : A → D B) : D B :=
  λ d, match m d with
       | (Returns a, d') => k a d'
       | (Throws e, d') => (Throws e, d')
       end.

Definition try_catch {A} (body : D A) (handler : Error → D A) : D A :=
  λ d, match body d with
       | (Returns a, d') => (Returns a, d')
       | (Throws e, d') => handler e d'
       end.

Notation "x <- m ;; k" := (bind m (λ x, k))
  (at level 100, m at next level, right associativity).

(** [[...new Set(xs)]]: the first occurrence of each element, in order. *)
Fixpoint distinct (seen xs : list str) : list str :=
  match xs with
  | [] => []
  | x :: rest =>
      if decide (x ∈ seen) then distinct seen rest
      else x :: distinct (x :: seen) rest
  end.

(** [new Map(documents.map(doc => [doc.id, doc]))]: a later entry replaces
    an earlier one with the same key. *)
Definition document_map (documents : list UserDocument.t) : gmap str UserDocument.t :=
  fold_left (λ m doc, <[UserDocument.id doc := doc]> m) documents ∅.

(** [document?.title || 'Unknown Document'] *)
Definition title_of (document : option UserDocument.t) : str :=
  match document with
  | Some doc =>
      match UserDocument.title doc with
      | [] => of_string "Unknown Document"
      | title => title
      end
  | None => of_string "Unknown Document"
  end.

Definition newline : ascii := ascii_of_nat 10.

(** The template literal of a part of the context. *)
Definition context_part (documentMap : gmap str UserDocument.t) (chunk : DocumentChunk.t)
    : str :=
  of_string "[From: " ++ title_of (documentMap !! DocumentChunk.documentId chunk)
  ++ of_string "]" ++ [newline] ++ DocumentChunk.content chunk.

(** [parts.join(separator)] *)
Fixpoint join (separator : str) (parts : list str) : str :=
  match parts with
  | [] => []
  | [part] => part
  | part :: rest => part ++ separator ++ join separator rest
  end.

Section Operations.
Variable w : Rag.World.

(** An operation of the repository that reads [db.userDocuments]. *)
Definition read_documents {A} (run : list UserDocument.t → A) : D A :=
  λ d, let s := chunk_side d in
       let d' := {| chunk_side := Rag.next_tick s; userDocuments := userDocuments d |} in
       match Rag.db_fault w (Rag.tick s) with
       | Some e => (Throws e, d')
       | None => (Returns (run (userDocuments d)), d')
       end.

(** [db.userDocuments.where('id').anyOf(ids).toArray()] *)
Definition documents_anyOf (ids : list str) : D (list UserDocument.t) :=
  read_documents (filter (λ doc, UserDocument.id doc ∈ ids)).

(** [db.userDocuments.toArray()] *)
Definition documents_toArray : D (list UserDocument.t) :=
  read_documents (λ documents, documents).

(** [getRelevantContext(query, maxChunks)] *)
Definition getRelevantContext (query : str) (maxChunks : Z) : D str :=
  try_catch
    (relevantChunks <- lift (Rag.searchChunks w query maxChunks) ;;
     match relevantChunks with
     | [] => ret []
     | _ =>
         let documentIds := distinct [] (map DocumentChunk.documentId relevantChunks) in
         documents <- documents_anyOf documentIds ;;
         let documentMap := document_map documents in
         let contextParts := map (context_part documentMap) relevantChunks in
         ret (join [newline; newline] contextParts)
     end)
    (λ error, ret []).

(** [processDocument] on the database. *)
Definition processDocument (array_limit : nat) (document : UserDocument.t) : D unit :=
  lift (Rag.processDocument w array_limit document).

(** The [for ... of] loop of [processAllDocuments]. *)
Fixpoint process_each (array_limit : nat) (documents : list UserDocument.t) : D unit :=
  match documents with
  | [] => ret ()
  | document :: rest =>
      _ <- processDocument array_limit document ;;
      process_each array_limit rest
  end.

(** [processAllDocuments()]: the handler throws the error again. *)
Definition processAllDocuments (array_limit : nat) : D unit :=
  try_catch
    (documents <- documents_toArray ;;
     process_each array_limit documents)
    (λ error, throw error).

End Operations.

End Engine.

(** ** Vector stores (vectorStore.ts) *)

Module VectorStore.
Import JsString.

(** The classes that implement [VectorStore], with the fields set by
    their constructors. *)
Inductive t : Type :=
  | LocalVectorStore
  | PineconeVectorStore (apiKey environment indexName namespace : str).

Definition name (store : t) : str :=
  match store with
  | LocalVectorStore => of_string "local"
  | PineconeVectorStore _ _ _ _ => of_string "pinecone"
  end.

(** An element of [vectors] in [addChunks]; [createdAt] stands for the ISO
    string of the same instant. *)
Record Vector : Type := {
  id : str;
  values : list R;
  content : str;
  documentId : str;
  chunkIndex : Z;
  createdAt : Z
}.

(** [chunk.embeddings || []] and the metadata of the chunk. *)
Definition to_vector (chunk : DocumentChunk.t) : Vector :=
  {| id := DocumentChunk.id chunk;
     values := match DocumentChunk.embeddings chunk with
               | Some embeddings => embeddings
               | None => []
               end;
     content := DocumentChunk.content chunk;
     documentId := DocumentChunk.documentId chunk;
     chunkIndex := DocumentChunk.chunkIndex chunk;
     createdAt := DocumentChunk.createdAt chunk |}.

(** The index service: the batches it has taken and the number of requests
    it has received. *)
Record Index : Type := {
  upserted : list (list Vector);
  requests : nat
}.

(** [makeRequest('/vectors/upsert', 'POST', { vectors: batch, ... })].
    [refuses n] is the error of the request number [n], if it fails. *)
Definition upsert (refuses : nat → option Error) (batch : list Vector)
    : Index → Outcome unit * Index :=
  λ ix, match refuses (requests ix) with
        | Some e => (Throws e, {| upserted := upserted ix; requests := S (requests ix) |})
        | None => (Returns (), {| upserted := upserted ix ++ [batch];
                                  requests := S (requests ix) |})
        end.

Definition batchSize : Z := 100.

(** [for (let i = ...; i < vectors.length; i += batchSize) { ... }] *)
Fixpoint upsert_from (fuel : nat) (refuses : nat → option Error)
    (vectors : list Vector) (i : Z) : Index → option (Outcome unit * Index) :=
  λ ix, match fuel with
        | O => None
        | S fuel' =>
            if i <? Z.of_nat (length vectors) then
              match upsert refuses (slice vectors i (i + batchSize)) ix with
              | (Returns _, ix') => upsert_from fuel' refuses vectors (i + batchSize) ix'
              | (Throws e, ix') => Some (Throws e, ix')
              end
            else Some (Returns (), ix)
        end.

(** [addChunks(chunks)] of the two stores. *)
Definition addChunks (fuel : nat) (refuses : nat → option Error) (store : t)
    (chunks : list DocumentChunk.t) : Index → option (Outcome unit * Index) :=
  λ ix, match store with
        | LocalVectorStore => Some (Returns (), ix)
        | PineconeVectorStore _ _ _ _ =>
            match chunks with
            | [] => Some (Returns (), ix)
            | _ => upsert_from fuel refuses (map to_vector chunks) 0 ix
            end
        end.

(** [deleteChunks(documentId)] and [clear()]: both stores only write to the
    console. *)
Definition deleteChunks (store : t) (documentId : str) : Index → Outcome unit * Index :=
  λ ix, (Returns (), ix).

Definition clear (store : t) : Index → Outcome unit * Index :=
  λ ix, (Returns (), ix).

(** The chunk made of an element of [response.matches]. *)
Definition from_match (found : Vector) : DocumentChunk.t :=
  DocumentChunk.Make (id found) (documentId found) (content found)
    (Some (values found)) (chunkIndex found) (createdAt found).

(** What a search works on: the calls made to embedding providers and the
    index service. *)
Definition Remote : Type := list str * Index.

(** [searchChunks(query, limit)] of the two stores. [answers n vector topK
    namespace] is the outcome of the query that is request number [n]: the
    matches, or the error thrown by [makeRequest]. *)
Definition searchChunks (loads : str → bool) (net : EmbeddingsManager.Network)
    (answers : nat → list R → Z → str → Outcome (list Vector))
    (store : t) (query : str) (limit : Z)
    : Remote → Outcome (list DocumentChunk.t) * Remote :=
  λ '(calls, ix),
    match store with
    | LocalVectorStore => (Returns [], (calls, ix))
    | PineconeVectorStore apiKey _ _ namespace =>
        match Factory.createEmbeddingsManager loads Factory.openai (Some apiKey) None with
        | Throws e => (Throws e, (calls, ix))
        | Returns embeddingsManager =>
            let '(queryEmbedding, _, calls') :=
              EmbeddingsManager.getEmbeddings net embeddingsManager calls query true in
            let ix' := {| upserted := upserted ix; requests := S (requests ix) |} in
            match answers (requests ix) queryEmbedding limit namespace with
            | Throws e => (Throws e, (calls', ix'))
            | Returns matches => (Returns (map from_match matches), (calls', ix'))
            end
        end
    end.

(** The second argument of [createVectorStoreManager]. *)
Record Config : Type := {
  apiKey : option str;
  environment : option str;
  indexName : option str;
  namespace : option str
}.

Inductive StoreType : Type := local_store | pinecone_store.

(** [config?.field] *)
Definition field (config : option Config) (get : Config → option str) : option str :=
  match config with
  | Some c => get c
  | None => None
  end.

(** [createVectorStoreManager(storeType, config)]; the manager holds the
    store and nothing else. *)
Definition createVectorStoreManager (storeType : StoreType) (config : option Config)
    : Outcome t :=
  match storeType with
  | pinecone_store =>
      if Factory.missing (field config apiKey)
         || Factory.missing (field config environment)
         || Factory.missing (field config indexName)
      then Throws (of_string "Pinecone configuration required: apiKey, environment, indexName")
      else Returns (PineconeVectorStore
                      (Factory.or_default (field config apiKey) [])
                      (Factory.or_default (field config environment) [])
                      (Factory.or_default (field config indexName) [])
                      (Factory.or_default (field config namespace) (of_string "default")))
  | local_store => Returns LocalVectorStore
  end.

End VectorStore.

Import JsString Chunker.

(** * Notions used in the statements *)

Definition sentence_end (c : ascii) : Prop :=
  c = "."%char ∨ c = "?"%char ∨ c = "!"%char.

(** [p] is the index in [chunk] of its last '.', '?' or '!'. *)
Definition last_sentence_end (chunk : str) (p : Z) : Prop :=
  0 <= p
  ∧ (∃ c, chunk !! Z.to_nat p = Some c ∧ sentence_end c)
  ∧ ∀ (q : nat) c, p < Z.of_nat q → chunk !! q = Some c → ¬ sentence_end c.

Definition no_sentence_end (chunk : str) : Prop :=
  ∀ (q : nat) c, chunk !! q = Some c → ¬ sentence_end c.

(** [p > chunkSize * 0.7], the test of the source for a window that
    starts at 0. *)
Definition exceeds_70_percent (p chunkSize : Z) : bool :=
  Number.gtb (Number.of_Z p) (Number.mul (Number.of_Z chunkSize) Number.seven_tenths).

(** A [number] that is not below zero, or NaN. *)
Definition not_negative (x : SpecFloat.spec_float) : Prop :=
  match x with
  | SpecFloat.S754_zero s | SpecFloat.S754_infinity s | SpecFloat.S754_finite s _ _ =>
      s = false
  | SpecFloat.S754_nan => True
  end.

(** The rule in the words of the specification: the window is cut
    after its last sentence end when that one lies at
    [start + 0.7 * chunk_size] or later. *)
Definition window_chunk_as_specified (text : str) (chunkSize start : Z) : str :=
  let end_ := window_end text chunkSize start in
  let chunk := slice text start end_ in
  if end_ <? len text then
    let lastBreak := last_break chunk in
    if (0 <=? lastBreak) && (10 * start + 7 * chunkSize <=? 10 * (start + lastBreak))
    then slice chunk 0 (lastBreak + 1)
    else chunk
  else chunk.

(** Euclidean norm of a vector. *)
Definition norm (v : list R) : R :=
  sqrt (fold_right (λ x acc, x * x + acc)%R 0%R v).

(** The vector of [n] zeros. *)
Definition zero_vector (n : nat) : list R := replicate n 0%R.

(** The entries are counts, and one of them at least is positive. *)
Definition counted (embedding : list Z) : Prop :=
  Forall (λ v, 0 <= v) embedding ∧ ∃ i v, embedding !! i = Some v ∧ 1 <= v.

(** The call goes as far as the active provider: the cache is not
    consulted, or holds nothing under the key of the text. *)
Definition provider_reached (m : EmbeddingsManager.t) (text : str) (useCache : bool) : Prop :=
  (if useCache then EmbeddingsManager.cache m !! EmbeddingsManager.cacheKey text else None)
  = None.

(** The comparator [(a, b) => key(b) - key(a)] and the order it sorts by. *)
Definition by_key_desc {A} (key : A → R) (a b : A) : R := (key b - key a)%R.

(** Sum of [f] over the pairs of entries. *)
Definition pair_sum (f : R * R → R) (l : list (R * R)) : R :=
  foldr (λ ab acc, f ab + acc)%R 0%R l.

(** The polynomial of which the hash is the wrapped value:
    [h = h * 31 + code] over the code units, from 0. *)
Definition polynomial_31 (word : str) : Z :=
  fold_left (λ h b, 31 * h + charCode b) word 0.

(** Sum of the entries of the array. *)
Definition total (embedding : list Z) : Z := foldr Z.add 0 embedding.

(** Every vector of the cache is the hash embedding of a text with the
    key it is stored under. *)
Definition hash_cache (m : EmbeddingsManager.t) : Prop :=
  ∀ key v, EmbeddingsManager.cache m !! key = Some v →
    ∃ text, EmbeddingsManager.cacheKey text = key
            ∧ v = SimpleEmbeddings.generateEmbeddings text.

(** A string without white space at either end. *)
Definition trimmed (s : str) : Prop :=
  (∀ c, head s = Some c → is_white_space c = false)
  ∧ (∀ c, last s = Some c → is_white_space c = false).

(** A row made by the storing loop for a document. *)
Definition stored_for (documentId : str) (row : DocumentChunk.t) : Prop :=
  DocumentChunk.documentId row = documentId ∧ is_Some (DocumentChunk.embeddings row).

(** The document of the table with a given id, if any. *)
Definition document_with (table : list UserDocument.t) (documentId : str)
    : option UserDocument.t :=
  find (λ doc, bool_decide (UserDocument.id doc = documentId)) table.

(** The context in terms of the table of documents: one part per chunk,
    headed by the title of its document. *)
Definition context_of (table : list UserDocument.t) (chunks : list DocumentChunk.t) : str :=
  Engine.join [Engine.newline; Engine.newline]
    (map (λ chunk,
            of_string "[From: "
            ++ Engine.title_of (document_with table (DocumentChunk.documentId chunk))
            ++ of_string "]" ++ [Engine.newline] ++ DocumentChunk.content chunk)
         chunks).

(** A batch that the index service takes: Pinecone has a limit of 100
    vectors per request. *)
Definition batch_ok (batch : list VectorStore.Vector) : Prop :=
  (0 < length batch ≤ 100)%nat.

(** * Inputs of the examples *)

(** A text of 1500 letters, without any sentence break. *)
Definition letters_1500 : str := replicate 1500 "a"%char.

(** A vendor that rejects every request, as with an invalid key. *)
Definition rejecting : EmbeddingsManager.Network :=
  λ _ _ _, Throws (of_string "OpenAI API error: Unauthorized").

Definition openai_manager : EmbeddingsManager.t :=
  EmbeddingsManager.new
    (EmbeddingsManager.OpenAIEmbeddings (of_string "invalid") (of_string "text-embedding-3-small")).

(** Two texts of 101 code units that differ in the last one only. *)
Definition long_x : str := replicate 100 "a"%char ++ of_string "x".
Definition long_y : str := replicate 100 "a"%char ++ of_string "y".

(** A world without faults, and one whose repository always throws. *)
Definition quiet : Rag.World :=
  {| Rag.network := rejecting;
     Rag.db_fault := λ _, None;
     Rag.randomUUID := λ n, of_string (pretty n);
     Rag.clock := λ n, Z.of_nat n |}.

Definition broken_db : Rag.World :=
  {| Rag.network := rejecting;
     Rag.db_fault := λ _, Some (of_string "DatabaseClosedError");
     Rag.randomUUID := λ n, of_string (pretty n);
     Rag.clock := λ n, Z.of_nat n |}.

(** A stored chunk without embeddings, and the state that holds it. *)
Definition vectorless : DocumentChunk.t :=
  DocumentChunk.Make (of_string "c1") (of_string "d1") (of_string "birds fly") None 0 0.

Definition initial (rows : list DocumentChunk.t) : Rag.State :=
  {| Rag.embeddingsManager := None; Rag.calls := [];
     Rag.documentChunks := rows; Rag.tick := 0 |}.

(** A document without content. *)
Definition empty_document : UserDocument.t :=
  UserDocument.Make (of_string "d1") (of_string "notes") [] (of_string "upload").

(** A world whose repository throws at its seventh effect, which is the
    second [add] of an ingestion. *)
Definition second_add_fails : Rag.World :=
  {| Rag.network := rejecting;
     Rag.db_fault := λ n, if (n =? 6)%nat then Some (of_string "QuotaExceededError") else None;
     Rag.randomUUID := λ n, of_string (pretty n);
     Rag.clock := λ n, Z.of_nat n |}.

(** A manager on the hash-based provider, and one that holds an entry
    under the key of [long_x]. *)
Definition simple_manager : EmbeddingsManager.t :=
  EmbeddingsManager.new EmbeddingsManager.SimpleEmbeddings.

Definition manager_with_entry : EmbeddingsManager.t :=
  EmbeddingsManager.Manager EmbeddingsManager.SimpleEmbeddings
    {[ EmbeddingsManager.cacheKey long_x := [1%R] ]}.

(** Two vectors, the second without a norm. *)
Definition vector_3_4 : list R := [3%R; 4%R].
Definition vector_0_0 : list R := [0%R; 0%R].

(** Texts without sentence ends or white space. *)
Definition letters_60 : str := replicate 60 "a"%char.
Definition letters_120 : str := replicate 120 "a"%char.

(** A document with content, and a database made of documents and
    stored chunks. *)
Definition one_letter_document : UserDocument.t :=
  UserDocument.Make (of_string "d2") (of_string "draft") (of_string "a") (of_string "upload").

Definition library (documents : list UserDocument.t) (rows : list DocumentChunk.t)
    : Engine.Db :=
  {| Engine.chunk_side := initial rows; Engine.userDocuments := documents |}.

(** A Pinecone store, 150 chunks, an index service that refuses its
    second request, and the configuration of the store. *)
Definition pinecone : VectorStore.t :=
  VectorStore.PineconeVectorStore (of_string "key") (of_string "us-east") (of_string "notes")
    (of_string "default").

Definition chunks_150 : list DocumentChunk.t := replicate 150 vectorless.

Definition second_request_refused : nat → option Error :=
  λ n, if (n =? 1)%nat then Some (of_string "Pinecone API error: Bad Gateway") else None.

Definition no_index : VectorStore.Index :=
  {| VectorStore.upserted := []; VectorStore.requests := 0 |}.

Definition pinecone_config : VectorStore.Config :=
  {| VectorStore.apiKey := Some (of_string "key");
     VectorStore.environment := Some (of_string "us-east");
     VectorStore.indexName := Some (of_string "notes");
     VectorStore.namespace := None |}.

(** * Checks of the definitions on small inputs *)

Example split_ws_ex :
  split_ws (of_string " a  b ") = [of_string ""; of_string "a"; of_string "b"; of_string ""].
Proof. reflexivity. Qed.

Example hash_ex : SimpleEmbeddings.hash (of_string "hello") = 99162322.
Proof. reflexivity. Qed.

Example hash_wrap_ex : SimpleEmbeddings.hash (of_string "polygenelubricants") = - 2 ^ 31.
Proof. reflexivity. Qed.

Example walk_ex :
  map (λ n, start (walk_after n (of_string "abcdefg.ijkl") 10 2)) [0; 1; 2; 3]%nat
  = [0; 8; 10; 10].
Proof. reflexivity. Qed.

Example chunk_ex :
  window_chunk (of_string "abcdefgh.jkl") 10 0 = of_string "abcdefgh.".
Proof. reflexivity. Qed.

(** The product with 0.7 is rounded: 90 * 0.7 is just below 63, so that
    the index 63 is past the threshold of a window of size 90, while
    10 * 0.7 is 7 and 1000 * 0.7 is 700. *)
Example threshold_rounding_ex :
  exceeds_70_percent 63 90 = true
  ∧ exceeds_70_percent 7 10 = false
  ∧ exceeds_70_percent 700 1000 = false
  ∧ exceeds_70_percent 701 1000 = true.
Proof. by vm_compute. Qed.

(** * The window walk of [chunkText] *)

Section Walk.
Variables (text : str) (chunkSize overlap : Z).

Lemma window_end_le (s : Z) : window_end text chunkSize s <= len text.
Proof. unfold window_end. lia. Qed.

(** With a positive overlap the next window begins before the end of the
    text, wherever the present one begins. *)
Lemma chunk_step_start (w : walk) :
  0 < overlap → start (chunk_step text chunkSize overlap w) < len text.
Proof. intros Hov. simpl. pose proof (window_end_le (start w)). lia. Qed.

(** While a window ends inside the text, the next one begins
    [chunkSize - overlap] further. *)
Lemma chunk_step_advance (w : walk) :
  start w + chunkSize <= len text →
  start (chunk_step text chunkSize overlap w) = start w + (chunkSize - overlap).
Proof. intros H. simpl. unfold window_end. lia. Qed.

Lemma walk_after_S (n : nat) :
  walk_after (S n) text chunkSize overlap
  = chunk_step text chunkSize overlap (walk_after n text chunkSize overlap).
Proof. reflexivity. Qed.

(** The loop condition holds before every turn. *)
Lemma walk_after_start (n : nat) :
  text ≠ [] → 0 < overlap → start (walk_after n text chunkSize overlap) < len text.
Proof.
  intros Hne Hov. destruct n as [|n].
  - simpl. unfold len. destruct text; [done | simpl; lia].
  - rewrite walk_after_S. by apply chunk_step_start.
Qed.

(** So the loop cannot leave: whatever the fuel, it is spent. *)
Lemma chunk_loop_never_exits (fuel : nat) (w : walk) :
  0 < overlap → start w < len text →
  chunk_loop fuel text chunkSize overlap w = None.
Proof.
  intros Hov. revert w. induction fuel as [|fuel IH]; intros w Hw; [done|].
  simpl. apply Z.ltb_lt in Hw as ->. apply IH. by apply chunk_step_start.
Qed.

Lemma chunkText_never_returns (fuel : nat) :
  text ≠ [] → 0 < overlap → chunkText fuel text chunkSize overlap = None.
Proof.
  intros Hne Hov. unfold chunkText.
  rewrite chunk_loop_never_exits; [done | done |].
  simpl. unfold len. destruct text; [done | simpl; lia].
Qed.

(** The only text on which [chunkText] returns, when the overlap is
    positive, is the empty one; it returns no chunk. *)
Lemma chunkText_returns_inv (fuel : nat) (cs : list str) :
  0 < overlap → chunkText fuel text chunkSize overlap = Some cs →
  text = [] ∧ cs = [].
Proof.
  intros Hov Hret. destruct text as [|c r] eqn:Ht.
  - split; [done|]. destruct fuel; [done|]. by injection Hret as <-.
  - rewrite <- Ht in Hret. rewrite chunkText_never_returns in Hret; [done | | done].
    by rewrite Ht.
Qed.

End Walk.

(** C1. For a non-empty text and 0 < overlap < chunkSize the claim asks
    [chunkText] to return; the loop of the source never does: after a
    window that reaches the end of the text the next one starts at
    [text.length - overlap], which is again before the end, so no amount
    of fuel lets [chunkText] return a list of chunks. *)
Theorem chunkText_diverges (text : str) (chunkSize overlap : Z) :
  text ≠ [] → 0 < overlap < chunkSize →
  ∀ fuel, chunkText fuel text chunkSize overlap = None
          ∧ start (walk_after fuel text chunkSize overlap) < len text.
Proof.
  intros Hne [Hov _] fuel. split.
  - by apply chunkText_never_returns.
  - by apply walk_after_start.
Qed.

Lemma chunkText_diverges_witness :
  of_string "a" ≠ [] ∧ 0 < 200 < 1000
  ∧ ∀ fuel, chunkText fuel (of_string "a") 1000 200 = None
            ∧ start (walk_after fuel (of_string "a") 1000 200) < len (of_string "a").
Proof.
  split; [done|]. split; [lia|].
  apply (chunkText_diverges (of_string "a") 1000 200); [done | lia].
Defined.

(** C5. On a text of length 1500 without '.', '?' or '!', with the default
    sizes, the starts of the windows are 0, 800, 1300, 1300, ...: the second
    step is of 500, not 800, from then on the start does not move, and
    [chunkText] never returns a chunk list. *)
Theorem chunkText_default_walk_stalls :
  last_break letters_1500 = -1
  ∧ map (λ n, start (walk_after n letters_1500 1000 200)) [0; 1; 2; 3; 4]%nat
    = [0; 800; 1300; 1300; 1300]
  ∧ ∀ fuel, chunkText fuel letters_1500 default_chunkSize default_overlap = None.
Proof.
  split; [by vm_compute|]. split; [by vm_compute|].
  intros fuel. by apply chunkText_never_returns.
Qed.

(** * Sentence ends and the truncation of a window *)

Section LastIndexOf.
Variable c : ascii.

Lemma lastIndexOf_from_spec (s : str) (i found : Z) :
  (lastIndexOf_from c s i found = found ∧ ∀ q : nat, s !! q ≠ Some c)
  ∨ (∃ p : nat, lastIndexOf_from c s i found = i + Z.of_nat p
                ∧ s !! p = Some c
                ∧ ∀ q : nat, (p < q)%nat → s !! q ≠ Some c).
Proof.
  revert i found. induction s as [|x r IH]; intros i found; simpl.
  - left. split; [done|]. by intros q.
  - destruct (IH (i + 1) (if Ascii.eqb x c then i else found))
      as [[Heq Hno] | (p & Heq & Hp & Hlast)].
    + destruct (Ascii.eqb_spec x c) as [->|Hne].
      * right. exists 0%nat. rewrite Heq. split; [lia|]. split; [done|].
        intros [|q] Hq; [lia|]. apply Hno.
      * left. split; [done|]. intros [|q]; simpl; [congruence | apply Hno].
    + right. exists (S p). rewrite Heq. split; [lia|]. split; [done|].
      intros [|q] Hq; [lia|]. apply Hlast. lia.
Qed.

(** Nothing equal to [c] lies after the index found. *)
Lemma lastIndexOf_after (s : str) (q : nat) :
  lastIndexOf s c < Z.of_nat q → s !! q ≠ Some c.
Proof.
  unfold lastIndexOf.
  destruct (lastIndexOf_from_spec s 0 (-1)) as [[_ Hno] | (p & -> & _ & Hlast)].
  - intros _. apply Hno.
  - intros Hq. apply Hlast. lia.
Qed.

(** The index found is [-1] or the place of a [c]. *)
Lemma lastIndexOf_at (s : str) :
  lastIndexOf s c = -1
  ∨ (0 <= lastIndexOf s c ∧ s !! Z.to_nat (lastIndexOf s c) = Some c).
Proof.
  unfold lastIndexOf.
  destruct (lastIndexOf_from_spec s 0 (-1)) as [[-> _] | (p & -> & Hp & _)].
  - by left.
  - right. split; [lia|]. by replace (Z.to_nat (0 + Z.of_nat p)) with p by lia.
Qed.

End LastIndexOf.

Lemma last_break_spec (chunk : str) :
  (last_break chunk = -1 ∧ no_sentence_end chunk)
  ∨ last_sentence_end chunk (last_break chunk).
Proof.
  unfold last_break, no_sentence_end, last_sentence_end.
  pose proof (lastIndexOf_after "."%char chunk) as A1.
  pose proof (lastIndexOf_after "?"%char chunk) as A2.
  pose proof (lastIndexOf_after "!"%char chunk) as A3.
  assert (∀ (q : nat) c,
    Z.max (Z.max (lastIndexOf chunk ".") (lastIndexOf chunk "?")) (lastIndexOf chunk "!")
      < Z.of_nat q → chunk !! q = Some c → ¬ sentence_end c) as Hafter.
  { intros q c Hq Hc [-> | [-> | ->]];
      [apply (A1 q) | apply (A2 q) | apply (A3 q)]; done || lia. }
  destruct (lastIndexOf_at "."%char chunk) as [E1 | [P1 L1]];
  destruct (lastIndexOf_at "?"%char chunk) as [E2 | [P2 L2]];
  destruct (lastIndexOf_at "!"%char chunk) as [E3 | [P3 L3]].
  1: { left. rewrite E1, E2, E3. split; [done|].
       intros q c. apply Hafter. rewrite E1, E2, E3. lia. }
  all: right; split; [lia|]; split; [|exact Hafter].
  all: destruct (Z.max_spec (lastIndexOf chunk ".") (lastIndexOf chunk "?")) as [[? M1] | [? M1]];
       destruct (Z.max_spec (Z.max (lastIndexOf chunk ".") (lastIndexOf chunk "?"))
                            (lastIndexOf chunk "!")) as [[? M2] | [? M2]];
       rewrite M2, ?M1.
  all: first [ by (exists "."%char; split; [done | by left])
             | by (exists "?"%char; split; [done | by right; left])
             | by (exists "!"%char; split; [done | by right; right])
             | lia ].
Qed.

Lemma last_sentence_end_unique (chunk : str) (p : Z) :
  last_sentence_end chunk p → p = last_break chunk.
Proof.
  intros (Hp & (c & Hc & Hend) & Hafter).
  destruct (last_break_spec chunk) as [[_ Hno] | (Hm & (d & Hd & Hdend) & Hmafter)].
  - destruct (Hno _ _ Hc Hend).
  - destruct (Z.lt_trichotomy p (last_break chunk)) as [Hlt | [Heq | Hgt]]; [|done|].
    + destruct (Hafter (Z.to_nat (last_break chunk)) d); [lia | done | done].
    + destruct (Hmafter (Z.to_nat p) c); [lia | done | done].
Qed.

Lemma last_sentence_end_lt (chunk : str) (p : Z) :
  last_sentence_end chunk p → p < len chunk.
Proof.
  intros (Hp & (c & Hc & _) & _). apply lookup_lt_Some in Hc. unfold len. lia.
Qed.

Lemma no_sentence_end_last_break (chunk : str) :
  no_sentence_end chunk → last_break chunk = -1.
Proof.
  intros Hno. destruct (last_break_spec chunk) as [[? _] | (_ & (c & Hc & Hend) & _)]; [done|].
  destruct (Hno _ _ Hc Hend).
Qed.

Lemma slice_prefix {A} (xs : list A) (b : Z) :
  0 <= b → slice xs 0 b = take (Z.to_nat b) xs.
Proof.
  intros Hb. unfold slice, relative_index.
  replace (0 <? 0) with false by done.
  destruct (b <? 0) eqn:Hneg; [lia|].
  replace (Z.to_nat (Z.min 0 (Z.of_nat (length xs)))) with 0%nat by lia.
  rewrite drop_0.
  destruct (Z.le_gt_cases b (Z.of_nat (length xs))).
  - f_equal. lia.
  - rewrite !take_ge by lia. done.
Qed.

Section Threshold.
Import SpecFloat.

Lemma binary_round_aux_sign (s : bool) (mx ex : Z) (lx : location) :
  match binary_round_aux Number.prec Number.emax s mx ex lx with
  | S754_zero s' | S754_infinity s' | S754_finite s' _ _ => s' = s
  | S754_nan => True
  end.
Proof.
  unfold binary_round_aux.
  destruct (shr_fexp _ _ mx ex lx) as [mrs' e'].
  destruct (shr_fexp _ _ _ e' loc_Exact) as [mrs'' e''].
  destruct (shr_m mrs''); [done | | done].
  by destruct (e'' <=? Number.emax - Number.prec).
Qed.

Lemma of_Z_not_negative (z : Z) : 0 < z → not_negative (Number.of_Z z).
Proof.
  destruct z as [|m|m]; [lia | | lia]. intros _.
  unfold Number.of_Z, binary_normalize, binary_round.
  destruct (shl_align _ _ _) as [mz ez]. apply binary_round_aux_sign.
Qed.

Lemma mul_seven_tenths_not_negative (x : spec_float) :
  not_negative x → not_negative (Number.mul x Number.seven_tenths).
Proof.
  destruct x as [s|s| |s m e]; simpl; try done.
  - by intros ->.
  - by intros ->.
  - intros ->. apply (binary_round_aux_sign false).
Qed.

(** Adding the start 0 does not change the outcome of a comparison. *)
Lemma add_zero_gtb (x y : spec_float) :
  Number.gtb x (Number.add (Number.of_Z 0) y) = Number.gtb x y.
Proof. by destruct y as [[]|[]| |[] m e], x as [[]|[]| |[] m' e']. Qed.

Lemma past_threshold_first (p chunkSize : Z) :
  past_threshold p 0 chunkSize = exceeds_70_percent p chunkSize.
Proof. apply add_zero_gtb. Qed.

(** No positive size puts the index [-1] of a missing sentence end past
    the threshold. *)
Lemma exceeds_70_percent_none (chunkSize : Z) :
  0 < chunkSize → exceeds_70_percent (-1) chunkSize = false.
Proof.
  intros H. unfold exceeds_70_percent.
  pose proof (mul_seven_tenths_not_negative _ (of_Z_not_negative _ H)) as Hn.
  by destruct (Number.mul _ _) as [[]|[]| |[] m e].
Qed.

Lemma forallb_seqZ (f : Z → bool) (a n p : Z) :
  forallb f (seqZ a n) = true → a <= p < a + n → f p = true.
Proof.
  intros Hall Hp. rewrite forallb_forall in Hall. apply Hall.
  apply list_elem_of_In, elem_of_seqZ. lia.
Qed.

(** With the default size the product is exactly 700. *)
Lemma exceeds_70_percent_default (p : Z) :
  -1 <= p < 1000 → exceeds_70_percent p 1000 = (700 <? p).
Proof.
  intros Hp. apply Bool.eqb_prop.
  apply (forallb_seqZ (λ p, Bool.eqb (exceeds_70_percent p 1000) (700 <? p)) (-1) 1001);
    [by vm_compute | lia].
Qed.

(** With the default sizes no index of the second window, which starts at
    800, is past the threshold 800 + 700. *)
Lemma past_threshold_second_default (lastBreak : Z) :
  -1 <= lastBreak < 1000 → past_threshold lastBreak 800 1000 = false.
Proof.
  intros Hp. apply negb_true_iff.
  apply (forallb_seqZ (λ p, negb (past_threshold p 800 1000)) (-1) 1001);
    [by vm_compute | lia].
Qed.

End Threshold.

Lemma slice_length_le (text : str) (from chunkSize : Z) :
  0 <= from → 0 < chunkSize →
  len (slice text from (window_end text chunkSize from)) <= chunkSize.
Proof.
  intros Hfrom Hcs. unfold slice, relative_index, window_end, len.
  rewrite length_take, length_drop.
  destruct (from <? 0) eqn:E1; [lia|].
  destruct (Z.min (from + chunkSize) (Z.of_nat (length text)) <? 0) eqn:E2; lia.
Qed.

Lemma last_break_range (chunk : str) : -1 <= last_break chunk < len chunk.
Proof.
  destruct (last_break_spec chunk) as [[-> _] | Hl].
  - unfold len. lia.
  - split; [destruct Hl; lia | by apply last_sentence_end_lt].
Qed.

(** C4, as the code has it for the first window. When the window that
    starts at 0 ends before the end of the text, its chunk is cut just
    after its last '.', '?' or '!' exactly when the index of that one is
    strictly greater than [chunkSize * 0.7], the product being the one of
    binary64; otherwise, and when the window has no sentence end, the chunk
    is the whole window. For the default size 1000 the product is 700. *)
Theorem first_window_truncation (text : str) (chunkSize : Z) :
  0 < chunkSize →
  window_end text chunkSize 0 < len text →
  let window := slice text 0 (window_end text chunkSize 0) in
  (no_sentence_end window → window_chunk text chunkSize 0 = window)
  ∧ ∀ p, last_sentence_end window p →
      (exceeds_70_percent p chunkSize = true →
       window_chunk text chunkSize 0 = slice text 0 (p + 1))
      ∧ (exceeds_70_percent p chunkSize = false →
         window_chunk text chunkSize 0 = window)
      ∧ (chunkSize = 1000 → exceeds_70_percent p chunkSize = (700 <? p)).
Proof.
  intros Hcs Hend window. unfold window_chunk. fold window.
  apply Z.ltb_lt in Hend as Hend'. rewrite Hend', past_threshold_first.
  split.
  - intros Hno. rewrite (no_sentence_end_last_break _ Hno).
    by rewrite exceeds_70_percent_none.
  - intros p Hp. pose proof (last_sentence_end_lt _ _ Hp) as Hlt.
    pose proof (slice_length_le text 0 chunkSize ltac:(lia) Hcs) as Hlen.
    fold window in Hlen.
    rewrite <- (last_sentence_end_unique window p) by done.
    destruct Hp as [Hp0 _]. split; [|split].
    + intros ->. rewrite !slice_prefix by lia. subst window.
      assert (0 <= window_end text chunkSize 0) by (unfold window_end, len; lia).
      rewrite slice_prefix in * by done.
      rewrite take_take. f_equal.
      unfold len in Hlt. rewrite length_take in Hlt. lia.
    + by intros ->.
    + intros ->. apply exceeds_70_percent_default. lia.
Qed.

Lemma first_window_truncation_witness :
  let text := of_string "abcdefgh.jkl" in
  0 < 10 ∧ window_end text 10 0 < len text
  ∧ last_sentence_end (slice text 0 (window_end text 10 0)) 8
  ∧ exceeds_70_percent 8 10 = true
  ∧ window_chunk text 10 0 = slice text 0 (8 + 1).
Proof.
  intros text.
  assert (last_sentence_end (slice text 0 (window_end text 10 0)) 8) as Hlast.
  { split; [lia|]. split.
    - exists "."%char. split; [done | by left].
    - intros q c Hq Hc [-> | [-> | ->]];
        do 10 (destruct q as [|q]; [by (lia || discriminate)|]); done. }
  split; [lia|]. split; [by vm_compute|]. split; [done|]. split; [by vm_compute|].
  apply (first_window_truncation text 10); [lia | by vm_compute | done | by vm_compute].
Defined.

(** C4, as stated, fails at the threshold itself: in "abcdefg.ijkl" with
    [chunkSize = 10] the last sentence end of the first window is at
    index 7 = 0 + 0.7 * 10, which is no earlier than the threshold, and the
    chunk keeps the whole window instead of ending after the '.'. *)
Lemma truncation_at_threshold_counterexample :
  let text := of_string "abcdefg.ijkl" in
  window_end text 10 0 < len text
  ∧ last_sentence_end (slice text 0 (window_end text 10 0)) 7
  ∧ 10 * 0 + 7 * 10 <= 10 * 7
  ∧ window_chunk_as_specified text 10 0 = of_string "abcdefg."
  ∧ window_chunk text 10 0 = of_string "abcdefg.ij".
Proof.
  intros text. split; [by vm_compute|]. split; [|split; [lia | split; by vm_compute]].
  split; [lia|]. split.
  - exists "."%char. split; [done | by left].
  - intros q c Hq Hc [-> | [-> | ->]];
      do 10 (destruct q as [|q]; [by (lia || discriminate)|]); done.
Qed.

(** The index compared with [start + chunkSize * 0.7] is relative to the
    window. With the default sizes the second window starts at 800 and
    holds the indices up to 999, none of which is past 800 + 700: it is
    never cut, wherever its sentence ends lie. *)
Lemma second_window_not_truncated (text : str) :
  window_chunk text 1000 800 = slice text 800 (window_end text 1000 800).
Proof.
  unfold window_chunk.
  destruct (window_end text 1000 800 <? len text) eqn:Hend; [|done].
  set (window := slice text 800 (window_end text 1000 800)).
  pose proof (slice_length_le text 800 1000 ltac:(lia) ltac:(lia)) as Hlen.
  pose proof (last_break_range window) as Hlt. fold window in Hlen.
  rewrite past_threshold_second_default; [done | lia].
Qed.

Example second_window_ex :
  let text := replicate 1700 "a"%char ++ of_string "." ++ replicate 400 "a"%char in
  start (walk_after 1 text 1000 200) = 800
  ∧ last_break (slice text 800 (window_end text 1000 800)) = 900
  ∧ len (window_chunk text 1000 800) = 1000.
Proof. by vm_compute. Qed.

(** * The hash-based provider *)

Section SimpleProvider.
Import SimpleEmbeddings.

Lemma split_ws_from_nonempty (in_sep : bool) (s : str) : split_ws_from in_sep s ≠ [].
Proof.
  revert in_sep. induction s as [|c r IH]; intros in_sep; simpl; [done|].
  destruct (is_white_space c).
  - destruct in_sep; [apply IH | done].
  - by destruct (split_ws_from false r).
Qed.

Lemma position_range (word : str) : 0 <= position word < dimensions.
Proof. unfold position. apply Z.rem_bound_pos; [lia | done]. Qed.

(** What the loop over the words keeps: the length of the array, and
    entries that are counts. *)
Lemma bump_length (embedding : list Z) (word : str) :
  length (bump embedding word) = length embedding.
Proof. apply length_alter. Qed.

Lemma bump_nonneg (embedding : list Z) (word : str) :
  Forall (λ v, 0 <= v) embedding → Forall (λ v, 0 <= v) (bump embedding word).
Proof.
  intros Hall. apply Forall_lookup. intros i v Hv.
  unfold bump in Hv. rewrite Forall_lookup in Hall.
  destruct (decide (Z.to_nat (position word) = i)) as [<-|Hne].
  - rewrite list_lookup_alter_eq in Hv.
    destruct (embedding !! Z.to_nat (position word)) as [u|] eqn:Hu; simplify_eq/=.
    specialize (Hall _ _ Hu). simpl in Hall. lia.
  - rewrite list_lookup_alter_ne in Hv by done. by eapply Hall.
Qed.

Lemma bump_counted_first (embedding : list Z) (word : str) :
  length embedding = Z.to_nat dimensions →
  Forall (λ v, 0 <= v) embedding → counted (bump embedding word).
Proof.
  intros Hlen Hall. split; [by apply bump_nonneg|].
  pose proof (position_range word) as Hpos.
  destruct (lookup_lt_is_Some_2 embedding (Z.to_nat (position word))) as [u Hu]; [lia|].
  exists (Z.to_nat (position word)), (Z.succ u). split.
  - unfold bump. by rewrite list_lookup_alter_eq, Hu.
  - rewrite Forall_lookup in Hall. specialize (Hall _ _ Hu). simpl in Hall. lia.
Qed.

Lemma bump_counted (embedding : list Z) (word : str) :
  counted embedding → counted (bump embedding word).
Proof.
  intros [Hall (i & v & Hv & Hone)]. split; [by apply bump_nonneg|].
  unfold bump. destruct (decide (Z.to_nat (position word) = i)) as [<-|Hne].
  - exists (Z.to_nat (position word)), (Z.succ v).
    rewrite list_lookup_alter_eq, Hv. split; [done | lia].
  - exists i, v. by rewrite list_lookup_alter_ne.
Qed.

Lemma fold_bump_length (words : list str) (embedding : list Z) :
  length (fold_left bump words embedding) = length embedding.
Proof.
  revert embedding. induction words as [|word words IH]; intros embedding; simpl; [done|].
  by rewrite IH, bump_length.
Qed.

Lemma fold_bump_counted (words : list str) (embedding : list Z) :
  counted embedding → counted (fold_left bump words embedding).
Proof.
  revert embedding. induction words as [|word words IH]; intros embedding H; simpl; [done|].
  by apply IH, bump_counted.
Qed.

Lemma counts_length (text : str) : length (counts text) = Z.to_nat dimensions.
Proof. unfold counts. by rewrite fold_bump_length, length_replicate. Qed.

(** Every text has a first word, be it the empty one; its position is
    counted. *)
Lemma counts_counted (text : str) : counted (counts text).
Proof.
  unfold counts, split_ws.
  destruct (split_ws_from false (toLowerCase text)) as [|word words] eqn:Hw.
  - by destruct (split_ws_from_nonempty false (toLowerCase text)).
  - cbn [fold_left]. apply fold_bump_counted, bump_counted_first.
    + by rewrite length_replicate.
    + apply Forall_replicate. lia.
Qed.

Lemma sum_squares_acc (embedding : list Z) (a : Z) :
  fold_left (λ sum val, sum + val * val) embedding a = a + sum_squares embedding.
Proof.
  unfold sum_squares. revert a.
  induction embedding as [|v l IH]; intros a; simpl; [lia|].
  rewrite (IH (a + v * v)), (IH (0 + v * v)). lia.
Qed.

Lemma sum_squares_cons (v : Z) (embedding : list Z) :
  sum_squares (v :: embedding) = v * v + sum_squares embedding.
Proof. unfold sum_squares at 1. simpl. by rewrite sum_squares_acc. Qed.

Lemma sum_squares_nonneg (embedding : list Z) : 0 <= sum_squares embedding.
Proof.
  induction embedding as [|v l IH]; [done|]. rewrite sum_squares_cons. nia.
Qed.

Lemma sum_squares_counted (embedding : list Z) :
  counted embedding → 1 <= sum_squares embedding.
Proof.
  intros [_ (i & v & Hv & Hone)]. revert i Hv.
  induction embedding as [|u l IH]; intros i Hv; [done|].
  rewrite sum_squares_cons. destruct i as [|i]; simpl in Hv.
  - injection Hv as ->. pose proof (sum_squares_nonneg l). nia.
  - specialize (IH _ Hv). nia.
Qed.

(** The sum under the square root is at least 1, whatever the text. *)
Lemma sum_squares_counts (text : str) : 1 <= sum_squares (counts text).
Proof. apply sum_squares_counted, counts_counted. Qed.

Lemma magnitude_counts (text : str) : (1 <= magnitude (counts text))%R.
Proof.
  unfold magnitude. rewrite <- sqrt_1. apply sqrt_le_1_alt.
  apply IZR_le, sum_squares_counts.
Qed.

Lemma generateEmbeddings_length (text : str) :
  length (generateEmbeddings text) = 384%nat.
Proof. unfold generateEmbeddings. by rewrite length_map, counts_length. Qed.

Lemma squares_scaled (embedding : list Z) (m : R) :
  m ≠ 0%R →
  fold_right (λ x acc, x * x + acc)%R 0%R (map (λ val, IZR val / m)%R embedding)
  = (IZR (sum_squares embedding) / (m * m))%R.
Proof.
  intros Hm. induction embedding as [|v l IH]; simpl.
  - unfold sum_squares. simpl. by field.
  - rewrite IH, sum_squares_cons, plus_IZR, mult_IZR. by field.
Qed.

Lemma generateEmbeddings_norm (text : str) : norm (generateEmbeddings text) = 1%R.
Proof.
  pose proof (magnitude_counts text) as Hm.
  pose proof (sum_squares_counts text) as Hs. apply IZR_le in Hs.
  unfold norm, generateEmbeddings. rewrite squares_scaled by lra.
  unfold magnitude in *. rewrite sqrt_sqrt by lra.
  replace (IZR (sum_squares (counts text)) / IZR (sum_squares (counts text)))%R
    with 1%R by (field; lra).
  apply sqrt_1.
Qed.

Lemma counts_empty : counts [] = 1 :: replicate 383 0.
Proof. by vm_compute. Qed.

Lemma map_replicate {A B} (f : A → B) (n : nat) (x : A) :
  map f (replicate n x) = replicate n (f x).
Proof. induction n as [|n IH]; simpl; [done | by rewrite IH]. Qed.

Lemma generateEmbeddings_empty :
  generateEmbeddings [] = 1%R :: replicate 383 0%R.
Proof.
  unfold generateEmbeddings, magnitude. rewrite counts_empty.
  replace (sum_squares (1 :: replicate 383 0)) with 1 by (by vm_compute).
  rewrite sqrt_1. cbn [map]. rewrite map_replicate. f_equal; [lra|]. f_equal. lra.
Qed.

End SimpleProvider.

(** C6, as the code has it. On the empty text the provider does not return
    the zero vector: the split gives one empty word, hashed to position 0,
    and the result is (1, 0, ..., 0). For every text some position is
    counted, so the sum of squares is at least 1 and the magnitude by
    which the entries are divided is never zero; the source has no guard
    and needs none. *)
Theorem generateEmbeddings_empty_and_magnitude :
  SimpleEmbeddings.generateEmbeddings [] = 1%R :: zero_vector 383
  ∧ ∀ text : str,
      1 <= SimpleEmbeddings.sum_squares (SimpleEmbeddings.counts text)
      ∧ SimpleEmbeddings.magnitude (SimpleEmbeddings.counts text) ≠ 0%R.
Proof.
  split; [apply generateEmbeddings_empty|].
  intros text. split; [apply sum_squares_counts|].
  pose proof (magnitude_counts text). lra.
Qed.

(** C6, as stated, fails on the empty text: the vector returned is not the
    zero vector of 384 entries. *)
Lemma generateEmbeddings_empty_counterexample :
  SimpleEmbeddings.generateEmbeddings [] ≠ zero_vector 384.
Proof.
  rewrite generateEmbeddings_empty. unfold zero_vector.
  change (replicate 384 0%R) with (0%R :: replicate 383 0%R).
  intros H. apply (f_equal head) in H. injection H as H. lra.
Qed.

(** * The embeddings manager *)

Section Manager.
Import EmbeddingsManager.
Variable net : Network.

Lemma getEmbeddings_hit (m : t) (calls : list str) (text : str) (cached : list R) :
  cache m !! cacheKey text = Some cached →
  getEmbeddings net m calls text true = (cached, m, calls).
Proof. intros H. unfold getEmbeddings. by rewrite H. Qed.

Lemma getEmbeddings_throws (m : t) (calls : list str) (text : str)
    (useCache : bool) (e : Error) :
  provider_reached m text useCache →
  generate net (provider m) calls text = Throws e →
  getEmbeddings net m calls text useCache
  = (SimpleEmbeddings.generateEmbeddings text, m, calls ++ [text]).
Proof. unfold provider_reached, getEmbeddings. by intros -> ->. Qed.

Lemma getEmbeddings_returns (m : t) (calls : list str) (text : str)
    (useCache : bool) (v : list R) :
  provider_reached m text useCache →
  generate net (provider m) calls text = Returns v →
  getEmbeddings net m calls text useCache
  = (v, if useCache then Manager (provider m) (<[cacheKey text := v]> (cache m)) else m,
     calls ++ [text]).
Proof. unfold provider_reached, getEmbeddings. by intros -> ->. Qed.

(** A call that reaches the provider is listed, whatever comes back. *)
Lemma getEmbeddings_calls (m : t) (calls : list str) (text : str) (useCache : bool) :
  provider_reached m text useCache →
  (getEmbeddings net m calls text useCache).2 = calls ++ [text].
Proof.
  intros H. destruct (generate net (provider m) calls text) as [v|e] eqn:Hg.
  - by rewrite (getEmbeddings_returns _ _ _ _ v).
  - by rewrite (getEmbeddings_throws _ _ _ _ e).
Qed.

(** No call changes the provider of the manager. *)
Lemma getEmbeddings_provider (m : t) (calls : list str) (text : str) (useCache : bool) :
  provider (getEmbeddings net m calls text useCache).1.2 = provider m.
Proof.
  unfold getEmbeddings.
  destruct (if useCache then cache m !! cacheKey text else None); [done|].
  destruct (generate net (provider m) calls text); [|done].
  by destruct useCache.
Qed.

Lemma cacheKey_shared (t1 t2 : str) :
  substring0 t2 100 = substring0 t1 100 → len t2 = len t1 → cacheKey t2 = cacheKey t1.
Proof. unfold cacheKey, of_length. by intros -> ->. Qed.

End Manager.

(** C3. When the call of the active provider throws, [getEmbeddings]
    returns a vector all the same: the one of the hash-based provider for
    the same text, which has 384 entries and norm 1; the manager, its
    provider included, is as before. *)
Theorem getEmbeddings_falls_back
    (net : EmbeddingsManager.Network) (m : EmbeddingsManager.t)
    (calls : list str) (text : str) (useCache : bool) (e : Error) :
  provider_reached m text useCache →
  EmbeddingsManager.generate net (EmbeddingsManager.provider m) calls text = Throws e →
  ∃ m' calls',
    EmbeddingsManager.getEmbeddings net m calls text useCache
    = (SimpleEmbeddings.generateEmbeddings text, m', calls')
    ∧ EmbeddingsManager.provider m' = EmbeddingsManager.provider m
    ∧ length (SimpleEmbeddings.generateEmbeddings text) = 384%nat
    ∧ norm (SimpleEmbeddings.generateEmbeddings text) = 1%R.
Proof.
  intros Hreach Hthrow. exists m, (calls ++ [text]).
  split; [by eapply getEmbeddings_throws|]. split; [done|].
  split; [apply generateEmbeddings_length | apply generateEmbeddings_norm].
Qed.

Lemma getEmbeddings_falls_back_witness :
  ∃ m' calls',
    EmbeddingsManager.getEmbeddings rejecting openai_manager [] (of_string "hello") true
    = (SimpleEmbeddings.generateEmbeddings (of_string "hello"), m', calls')
    ∧ EmbeddingsManager.provider m' = EmbeddingsManager.provider openai_manager
    ∧ length (SimpleEmbeddings.generateEmbeddings (of_string "hello")) = 384%nat
    ∧ norm (SimpleEmbeddings.generateEmbeddings (of_string "hello")) = 1%R.
Proof.
  apply (getEmbeddings_falls_back rejecting openai_manager [] (of_string "hello") true
           (of_string "OpenAI API error: Unauthorized")).
  - apply lookup_empty.
  - reflexivity.
Defined.

(** C8. A call with the cache enabled that misses and whose provider
    returns [v] stores [v] under the key of its text; from then on any
    call with the cache enabled for a text with the same first 100 code
    units and the same length returns [v], without a call to the provider
    and without a change of the manager, be the two texts different. *)
Theorem cache_hit_on_shared_fingerprint
    (net : EmbeddingsManager.Network) (m : EmbeddingsManager.t)
    (calls : list str) (t1 : str) (v : list R) :
  EmbeddingsManager.cache m !! EmbeddingsManager.cacheKey t1 = None →
  EmbeddingsManager.generate net (EmbeddingsManager.provider m) calls t1 = Returns v →
  ∃ m1,
    EmbeddingsManager.getEmbeddings net m calls t1 true = (v, m1, calls ++ [t1])
    ∧ EmbeddingsManager.cache m1 !! EmbeddingsManager.cacheKey t1 = Some v
    ∧ ∀ (t2 : str) (later : list str),
        substring0 t2 100 = substring0 t1 100 → len t2 = len t1 →
        EmbeddingsManager.getEmbeddings net m1 later t2 true = (v, m1, later).
Proof.
  intros Hmiss Hret. eexists. split; [by apply getEmbeddings_returns|].
  split; [apply lookup_insert_eq|].
  intros t2 later Hprefix Hlen. apply getEmbeddings_hit.
  rewrite (cacheKey_shared t1 t2) by done. apply lookup_insert_eq.
Qed.

Lemma cache_hit_on_shared_fingerprint_witness :
  long_x ≠ long_y
  ∧ ∃ m1,
      EmbeddingsManager.getEmbeddings rejecting
        (EmbeddingsManager.new EmbeddingsManager.SimpleEmbeddings) [] long_x true
      = (SimpleEmbeddings.generateEmbeddings long_x, m1, [] ++ [long_x])
      ∧ EmbeddingsManager.cache m1 !! EmbeddingsManager.cacheKey long_x
        = Some (SimpleEmbeddings.generateEmbeddings long_x)
      ∧ ∀ (t2 : str) (later : list str),
          substring0 t2 100 = substring0 long_x 100 → len t2 = len long_x →
          EmbeddingsManager.getEmbeddings rejecting m1 later t2 true
          = (SimpleEmbeddings.generateEmbeddings long_x, m1, later).
Proof.
  split.
  - intros H. apply (f_equal (λ s, s !! 100%nat)) in H. vm_compute in H. discriminate H.
  - apply (cache_hit_on_shared_fingerprint rejecting
             (EmbeddingsManager.new EmbeddingsManager.SimpleEmbeddings) [] long_x
             (SimpleEmbeddings.generateEmbeddings long_x)).
    + apply lookup_empty.
    + reflexivity.
Defined.

Example shared_fingerprint_ex :
  substring0 long_y 100 = substring0 long_x 100 ∧ len long_y = len long_x
  ∧ EmbeddingsManager.cacheKey long_x = replicate 100 "a"%char ++ of_string "_101".
Proof. by vm_compute. Qed.



(** * Ranking *)

Section Sorting.
Context {A : Type} (key : A → R).





Lemma sort_insert_length (x : A) (l : list A) :
  length (Rag.sort_insert (by_key_desc key) x l) = S (length l).
Proof.
  induction l as [|z l IH]; simpl; [done|].
  destruct (Rle_dec (by_key_desc key x z) 0); simpl; [done | by rewrite IH].
Qed.


End Sorting.

Section Rank.
Variables (queryEmbedding : list R).







End Rank.

(** * Search and ingestion *)

Section Search.
Import Rag.
Variable w : World.

(** The embedding step of rag.ts returns: a failure of the provider is
    absorbed by the manager. It leaves the table and the count of
    effects alone. *)
Lemma generateEmbeddings_returns (text : str) (s : State) :
  ∃ q m' calls',
    generateEmbeddings w text s = (Returns q, set_manager m' calls' s).
Proof.
  unfold generateEmbeddings.
  destruct (EmbeddingsManager.getEmbeddings _ _ _ _ _) as [[q m'] calls'].
  by exists q, m', calls'.
Qed.

(** When the repository throws at [toArray], the handler of
    [searchChunks] returns the empty array. *)
Lemma searchChunks_fault (query : str) (limit : Z) (s : State) (e : Error) :
  db_fault w (tick s) = Some e →
  ∃ s', searchChunks w query limit s = (Returns [], s').
Proof.
  intros Hfault. unfold searchChunks, try_catch, bind.
  destruct (generateEmbeddings_returns query s) as (q & m' & calls' & ->).
  unfold toArray, db_operation. simpl. rewrite Hfault. by eexists.
Qed.

(** Otherwise it returns the ranking of the whole table. *)
Lemma searchChunks_ranks (query : str) (limit : Z) (s : State) :
  db_fault w (tick s) = None →
  ∃ q s1 s',
    generateEmbeddings w query s = (Returns q, s1)
    ∧ searchChunks w query limit s = (Returns (rank q (documentChunks s) limit), s').
Proof.
  intros Hfault. unfold searchChunks, try_catch, bind.
  destruct (generateEmbeddings_returns query s) as (q & m' & calls' & ->).
  unfold toArray, db_operation. simpl. rewrite Hfault. simpl.
  by exists q, (set_manager m' calls' s); eexists.
Qed.

Lemma searchChunks_returns (query : str) (limit : Z) (s : State) :
  ∃ result s', searchChunks w query limit s = (Returns result, s').
Proof.
  destruct (db_fault w (tick s)) as [e|] eqn:Hfault.
  - destruct (searchChunks_fault query limit s e Hfault) as [s' ->]. by eexists _, _.
  - destruct (searchChunks_ranks query limit s Hfault) as (q & s1 & s' & _ & ->).
    by eexists _, _.
Qed.

End Search.

(** The sort keeps the elements, and what it puts first is not below
    what it puts after. *)

Section SortedPermutation.
Context {A : Type} (key : A → R).




End SortedPermutation.

Section Selection.
Variable w : Rag.World.

Lemma searchChunks_frame (query : str) (limit : Z) (s : Rag.State) :
  Rag.documentChunks (Rag.searchChunks w query limit s).2 = Rag.documentChunks s.
Proof.
  unfold Rag.searchChunks, Rag.try_catch, Rag.bind.
  destruct (generateEmbeddings_returns w query s) as (q & m' & calls' & ->).
  unfold Rag.toArray, Rag.db_operation. simpl.
  by destruct (Rag.db_fault w (Rag.tick s)).
Qed.


End Selection.




(** C9, as the code has it. A failure of the repository inside
    [searchChunks] is caught: the call returns the empty array, and no call
    of [searchChunks] throws. *)
Theorem searchChunks_swallows_failure
    (w : Rag.World) (query : str) (limit : Z) (s : Rag.State) (e : Error) :
  Rag.db_fault w (Rag.tick s) = Some e →
  (∃ s', Rag.searchChunks w query limit s = (Returns [], s'))
  ∧ ∀ query' limit' s0, ∃ result s',
      Rag.searchChunks w query' limit' s0 = (Returns result, s').
Proof.
  intros Hfault. split; [by eapply searchChunks_fault|].
  intros query' limit' s0. apply searchChunks_returns.
Qed.

Lemma searchChunks_swallows_failure_witness :
  (∃ s', Rag.searchChunks broken_db (of_string "flight") 5 (initial [vectorless])
         = (Returns [], s'))
  ∧ ∀ query' limit' s0, ∃ result s',
      Rag.searchChunks broken_db query' limit' s0 = (Returns result, s').
Proof.
  apply (searchChunks_swallows_failure broken_db (of_string "flight") 5
           (initial [vectorless]) (of_string "DatabaseClosedError")).
  reflexivity.
Defined.

(** C9, as stated, fails when the repository throws: the caller gets the
    empty array as a normal result, not an error. *)
Lemma searchChunks_failure_counterexample :
  Rag.db_fault broken_db 0 = Some (of_string "DatabaseClosedError")
  ∧ (Rag.searchChunks broken_db (of_string "flight") 5 (initial [vectorless])).1
    = Returns [].
Proof.
  split; [done|].
  by destruct (searchChunks_fault broken_db (of_string "flight") 5 (initial [vectorless])
              (of_string "DatabaseClosedError") eq_refl) as [s' ->].
Qed.

Section Ingestion.
Import Rag.
Variable w : World.

(** With no chunk to store, the body of the [try] is the deletion. *)
Lemma ingest_nil (documentId : str) (s : State) :
  (∃ e, db_fault w (tick s) = Some e
        ∧ ingest w documentId [] s = (Throws e, next_tick s))
  ∨ (db_fault w (tick s) = None
     ∧ ingest w documentId [] s
       = (Returns (),
          next_tick (set_rows (filter (λ r, DocumentChunk.documentId r ≠ documentId)
                                      (documentChunks s)) s))).
Proof.
  unfold ingest, bind, delete_where_documentId, db_operation.
  destruct (db_fault w (tick s)) as [e|]; [left; by exists e | by right].
Qed.

(** The two models of the loop agree: the loop that returns within the
    limit is the loop that returns with enough fuel. *)
Lemma chunk_loop_within_returns (room : nat) (text : str) (chunkSize overlap : Z)
    (walk0 : walk) (result : list str) :
  chunk_loop_within room text chunkSize overlap walk0 = Returns result →
  chunk_loop (S room) text chunkSize overlap walk0 = Some result.
Proof.
  revert walk0. induction room as [|room IH]; intros walk0.
  - cbn [chunk_loop_within chunk_loop].
    destruct (start walk0 <? len text); [done | by intros [= <-]].
  - cbn [chunk_loop_within]. change (chunk_loop (S (S room)) text chunkSize overlap walk0)
      with (if start walk0 <? len text
            then chunk_loop (S room) text chunkSize overlap
                   (chunk_step text chunkSize overlap walk0)
            else Some (chunks walk0)).
    destruct (start walk0 <? len text); [apply IH | by intros [= <-]].
Qed.

Lemma chunk_loop_within_of_fuel (fuel room : nat) (text : str) (chunkSize overlap : Z)
    (walk0 : walk) (result : list str) :
  chunk_loop fuel text chunkSize overlap walk0 = Some result → (fuel ≤ S room)%nat →
  chunk_loop_within room text chunkSize overlap walk0 = Returns result.
Proof.
  revert room walk0. induction fuel as [|fuel IH]; intros room walk0; [done|].
  cbn [chunk_loop]. destruct (start walk0 <? len text) eqn:Hlt.
  - intros Hloop Hfuel. destruct fuel as [|fuel']; [done|].
    destruct room as [|room]; [lia|]. cbn [chunk_loop_within]. rewrite Hlt.
    apply IH; [done | lia].
  - intros [= <-] _. destruct room; cbn [chunk_loop_within]; by rewrite Hlt.
Qed.

(** With a positive overlap the condition of the loop holds before every
    turn, so the loop ends by the push that throws. *)
Lemma chunk_loop_within_throws (room : nat) (text : str) (chunkSize overlap : Z)
    (walk0 : walk) :
  0 < overlap → start walk0 < len text →
  chunk_loop_within room text chunkSize overlap walk0
  = Throws (of_string "RangeError: Invalid array length").
Proof.
  intros Hov. revert walk0. induction room as [|room IH]; intros walk0 Hstart;
    cbn [chunk_loop_within]; apply Z.ltb_lt in Hstart as ->; [done|].
  apply IH. by apply chunk_step_start.
Qed.

Lemma chunkText_within_throws (array_limit : nat) (text : str) (chunkSize overlap : Z) :
  text ≠ [] → 0 < overlap →
  chunkText_within array_limit text chunkSize overlap
  = Throws (of_string "RangeError: Invalid array length").
Proof.
  intros Hne Hov. unfold chunkText_within.
  rewrite chunk_loop_within_throws; [done | done |].
  simpl. unfold len. destruct text; [done | simpl; lia].
Qed.

Lemma chunkText_within_nil (array_limit : nat) (chunkSize overlap : Z) :
  chunkText_within array_limit [] chunkSize overlap = Returns [].
Proof. by destruct array_limit. Qed.

(** On a document without content [processDocument] is the deletion; on
    any other document it throws the error of [chunkText] and the state
    is the one before the call. *)
Lemma processDocument_empty (array_limit : nat) (document : UserDocument.t) (s : State) :
  UserDocument.content document = [] →
  processDocument w array_limit document s
  = try_catch (ingest w (UserDocument.id document) []) (λ error, throw error) s.
Proof.
  intros Hempty. unfold processDocument. by rewrite Hempty, chunkText_within_nil.
Qed.

Lemma processDocument_content (array_limit : nat) (document : UserDocument.t) (s : State) :
  UserDocument.content document ≠ [] →
  processDocument w array_limit document s
  = (Throws (of_string "RangeError: Invalid array length"), s).
Proof.
  intros Hne. unfold processDocument.
  by rewrite chunkText_within_throws.
Qed.

End Ingestion.


(** On a document of one letter, with room for three chunks, the fourth
    push throws; a table that cannot be read fails the deletion. *)
Example processDocument_range_error_ex :
  Rag.processDocument quiet 3 one_letter_document (initial [vectorless])
  = (Throws (of_string "RangeError: Invalid array length"), initial [vectorless]).
Proof. reflexivity. Qed.

Example processDocument_fault_ex :
  Rag.processDocument broken_db 3 empty_document (initial [vectorless])
  = (Throws (of_string "DatabaseClosedError"), Rag.next_tick (initial [vectorless])).
Proof. reflexivity. Qed.

(** The storing loop taken alone is not all-or-nothing. In a world whose
    repository throws at the second [add], the body of the [try], run on
    two chunks, throws the error of the repository and leaves the first
    chunk stored. *)
Lemma ingest_not_atomic :
  let r := Rag.ingest second_add_fails (of_string "d1")
             [of_string "first chunk"; of_string "second chunk"] (initial []) in
  r.1 = Throws (of_string "QuotaExceededError")
  ∧ map DocumentChunk.content (Rag.documentChunks r.2) = [of_string "first chunk"]
  ∧ map DocumentChunk.chunkIndex (Rag.documentChunks r.2) = [0].
Proof. intros r. split; [reflexivity | split; reflexivity]. Qed.

(** * Further properties of the code *)

(** ** Lists and slices *)

Section Lists.
Context {A : Type}.

Lemma slice_inside (xs : list A) (a b : Z) :
  0 <= a <= b → b <= Z.of_nat (length xs) →
  slice xs a b = take (Z.to_nat (b - a)) (drop (Z.to_nat a) xs).
Proof.
  intros Ha Hb. unfold slice, relative_index.
  destruct (a <? 0) eqn:E1; [lia|]. destruct (b <? 0) eqn:E2; [lia|].
  do 2 f_equal; lia.
Qed.

(** The same when the end lies beyond the array, as for the last batch
    of a loop by steps. *)
Lemma slice_take_drop (xs : list A) (a b : Z) :
  0 <= a <= b →
  slice xs a b = take (Z.to_nat (b - a)) (drop (Z.to_nat a) xs).
Proof.
  intros Hab. unfold slice, relative_index.
  destruct (a <? 0) eqn:E1; [lia|]. destruct (b <? 0) eqn:E2; [lia|].
  destruct (Z.le_gt_cases b (Z.of_nat (length xs))).
  - do 2 f_equal; lia.
  - destruct (Z.le_gt_cases a (Z.of_nat (length xs))).
    + replace (Z.to_nat (Z.min a (Z.of_nat (length xs)))) with (Z.to_nat a) by lia.
      rewrite !take_ge; [done | rewrite length_drop; lia | rewrite length_drop; lia].
    + rewrite !drop_ge by lia. by rewrite !take_nil.
Qed.

Lemma slice_length_bound (xs : list A) (a b : Z) :
  Z.of_nat (length (slice xs a b)) <= Z.of_nat (length xs).
Proof. unfold slice. rewrite length_take, length_drop. lia. Qed.

Lemma take_take_drop (xs : list A) (n m : nat) :
  take n xs ++ take m (drop n xs) = take (n + m) xs.
Proof.
  revert xs. induction n as [|n IH]; intros [|x xs]; simpl; try done.
  - by destruct m.
  - by rewrite IH.
Qed.

Lemma filter_all (P : A → Prop) `{!∀ a, Decision (P a)} (l : list A) :
  Forall P l → filter P l = l.
Proof.
  induction 1 as [|x l Hx _ IH]; [done|]. by rewrite filter_cons_True, IH.
Qed.

Lemma last_rev (l : list A) : last (rev l) = head l.
Proof. destruct l as [|x l]; [done|]. simpl. by rewrite last_snoc. Qed.

Lemma head_rev (l : list A) : head (rev l) = last l.
Proof. by rewrite <- last_rev, rev_involutive. Qed.

End Lists.

(** ** [calculateCosineSimilarity] *)

Section Cosine.
Import Rag.
Local Open Scope R_scope.

Lemma similarity_sums_acc (l : list (R * R)) (d x y : R) :
  fold_left
    (λ acc ab, let '(dotProduct, normA, normB) := acc in
               (dotProduct + ab.1 * ab.2, normA + ab.1 * ab.1, normB + ab.2 * ab.2))
    l (d, x, y)
  = (d + pair_sum (λ ab, ab.1 * ab.2) l,
     x + pair_sum (λ ab, ab.1 * ab.1) l,
     y + pair_sum (λ ab, ab.2 * ab.2) l).
Proof.
  revert d x y. induction l as [|ab l IH]; intros d x y; simpl.
  - f_equal; [f_equal|]; lra.
  - rewrite IH. f_equal; [f_equal|]; lra.
Qed.

Lemma similarity_sums_eq (vecA vecB : list R) :
  similarity_sums vecA vecB
  = (pair_sum (λ ab, ab.1 * ab.2) (zip vecA vecB),
     pair_sum (λ ab, ab.1 * ab.1) (zip vecA vecB),
     pair_sum (λ ab, ab.2 * ab.2) (zip vecA vecB)).
Proof.
  unfold similarity_sums. rewrite similarity_sums_acc. f_equal; [f_equal|]; lra.
Qed.

Lemma pair_sum_swap (f : R * R → R) (vecA vecB : list R) :
  pair_sum f (zip vecB vecA) = pair_sum (λ ab, f (ab.2, ab.1)) (zip vecA vecB).
Proof.
  revert vecB. induction vecA as [|a vecA IH]; intros [|b vecB]; simpl; try done.
  by rewrite IH.
Qed.

Lemma pair_sum_ext (f g : R * R → R) (l : list (R * R)) :
  (∀ ab, f ab = g ab) → pair_sum f l = pair_sum g l.
Proof. intros H. induction l as [|ab l IH]; simpl; [done | by rewrite H, IH]. Qed.

(** The value of [calculateCosineSimilarity] in terms of the three sums. *)
Lemma cosine_unfold (vecA vecB : list R) :
  length vecA = length vecB →
  pair_sum (λ ab, ab.1 * ab.1) (zip vecA vecB) ≠ 0 →
  pair_sum (λ ab, ab.2 * ab.2) (zip vecA vecB) ≠ 0 →
  calculateCosineSimilarity vecA vecB
  = pair_sum (λ ab, ab.1 * ab.2) (zip vecA vecB)
    / (sqrt (pair_sum (λ ab, ab.1 * ab.1) (zip vecA vecB))
       * sqrt (pair_sum (λ ab, ab.2 * ab.2) (zip vecA vecB))).
Proof.
  intros Hlen HA HB. unfold calculateCosineSimilarity.
  rewrite decide_True by done. rewrite similarity_sums_eq.
  destruct (Req_dec_T _ 0); [done|]. by destruct (Req_dec_T _ 0).
Qed.

Lemma cosine_zero_cases (vecA vecB : list R) :
  length vecA ≠ length vecB
  ∨ pair_sum (λ ab, ab.1 * ab.1) (zip vecA vecB) = 0
  ∨ pair_sum (λ ab, ab.2 * ab.2) (zip vecA vecB) = 0 →
  calculateCosineSimilarity vecA vecB = 0.
Proof.
  unfold calculateCosineSimilarity. intros [Hlen | H].
  - by rewrite decide_False.
  - destruct (decide _); [|done]. rewrite similarity_sums_eq.
    destruct (Req_dec_T _ 0); [done|]. destruct (Req_dec_T _ 0); [done|].
    by destruct H.
Qed.

Lemma cosine_cases (vecA vecB : list R) :
  calculateCosineSimilarity vecA vecB = 0
  ∨ (length vecA = length vecB
     ∧ pair_sum (λ ab, ab.1 * ab.1) (zip vecA vecB) ≠ 0
     ∧ pair_sum (λ ab, ab.2 * ab.2) (zip vecA vecB) ≠ 0).
Proof.
  destruct (decide (length vecA = length vecB)) as [Hlen|Hlen];
    [|left; apply cosine_zero_cases; by left].
  destruct (Req_dec_T (pair_sum (λ ab, ab.1 * ab.1) (zip vecA vecB)) 0) as [HA|HA];
    [left; apply cosine_zero_cases; by right; left|].
  destruct (Req_dec_T (pair_sum (λ ab, ab.2 * ab.2) (zip vecA vecB)) 0) as [HB|HB];
    [left; apply cosine_zero_cases; by right; right|].
  by right.
Qed.

(** The two arguments play the same part. *)
Lemma cosine_comm (vecA vecB : list R) :
  Rag.calculateCosineSimilarity vecA vecB = Rag.calculateCosineSimilarity vecB vecA.
Proof.
  assert (∀ a b : list R,
    pair_sum (λ ab, ab.1 * ab.2) (zip b a) = pair_sum (λ ab, ab.1 * ab.2) (zip a b)
    ∧ pair_sum (λ ab, ab.1 * ab.1) (zip b a) = pair_sum (λ ab, ab.2 * ab.2) (zip a b)
    ∧ pair_sum (λ ab, ab.2 * ab.2) (zip b a) = pair_sum (λ ab, ab.1 * ab.1) (zip a b))
    as Hswap.
  { intros a b. rewrite 3!(pair_sum_swap _ a b). split; [|done].
    apply pair_sum_ext. intros ab. simpl. lra. }
  destruct (Hswap vecA vecB) as (HD & HA & HB).
  destruct (cosine_cases vecA vecB) as [H0 | (Hlen & HnA & HnB)].
  - rewrite H0. symmetry.
    unfold Rag.calculateCosineSimilarity in *.
    destruct (decide (length vecA = length vecB)) as [Hlen|Hlen].
    + rewrite decide_True by done. rewrite similarity_sums_eq in *. rewrite HD, HA, HB.
      destruct (Req_dec_T (pair_sum (λ ab, ab.1 * ab.1) (zip vecA vecB)) 0) as [E1|E1];
      destruct (Req_dec_T (pair_sum (λ ab, ab.2 * ab.2) (zip vecA vecB)) 0) as [E2|E2];
        try done.
      rewrite <- H0. f_equal. apply Rmult_comm.
    + by rewrite decide_False.
  - rewrite (cosine_unfold vecA vecB), (cosine_unfold vecB vecA); try done.
    + rewrite HD, HA, HB. f_equal. apply Rmult_comm.
    + by rewrite HA.
    + by rewrite HB.
Qed.

Lemma pair_sum_left_zero (vecA vecB : list R) :
  Forall (λ x, x = 0) vecA → pair_sum (λ ab, ab.1 * ab.1) (zip vecA vecB) = 0.
Proof.
  intros H. revert vecB. induction H as [|x v -> _ IH]; intros [|b vecB]; simpl; try done.
  rewrite IH. lra.
Qed.

End Cosine.

(** X1. [calculateCosineSimilarity] is symmetric: exchanging the two
    vectors does not change the result, also in the cases that return 0. *)
Theorem cosine_symmetric (vecA vecB : list R) :
  Rag.calculateCosineSimilarity vecA vecB = Rag.calculateCosineSimilarity vecB vecA.
Proof. apply cosine_comm. Qed.

(** X3. [calculateCosineSimilarity] returns 0, and does not divide, when
    the lengths differ or when one of the vectors has zero entries only. *)
Theorem cosine_degenerate (vecA vecB : list R) :
  length vecA ≠ length vecB
  ∨ Forall (λ x, x = 0%R) vecA ∨ Forall (λ x, x = 0%R) vecB →
  Rag.calculateCosineSimilarity vecA vecB = 0%R.
Proof.
  intros [Hlen | [HA | HB]].
  - apply cosine_zero_cases. by left.
  - apply cosine_zero_cases. right; left. by apply pair_sum_left_zero.
  - rewrite cosine_comm. apply cosine_zero_cases. right; left.
    by apply pair_sum_left_zero.
Qed.

Lemma cosine_degenerate_witness :
  (length vector_3_4 ≠ length vector_0_0
   ∨ Forall (λ x, x = 0%R) vector_3_4 ∨ Forall (λ x, x = 0%R) vector_0_0)
  ∧ Rag.calculateCosineSimilarity vector_3_4 vector_0_0 = 0%R.
Proof.
  assert (Forall (λ x, x = 0%R) vector_0_0) as H by (repeat constructor).
  split; [by right; right|].
  apply (cosine_degenerate vector_3_4 vector_0_0). by right; right.
Defined.

(** ** The hash-based provider *)

Section HashProvider.
Import SimpleEmbeddings.

Lemma ToInt32_range (z : Z) : - 2 ^ 31 <= ToInt32 z < 2 ^ 31.
Proof. unfold ToInt32. pose proof (Z.mod_pos_bound (z + 2 ^ 31) (2 ^ 32)). lia. Qed.

Lemma ToInt32_congr (x y : Z) :
  x mod 2 ^ 32 = y mod 2 ^ 32 → ToInt32 x = ToInt32 y.
Proof.
  intros H. unfold ToInt32. f_equal.
  rewrite (Z.add_mod x), (Z.add_mod y) by lia. by rewrite H.
Qed.

Lemma ToInt32_mod (z : Z) : ToInt32 z mod 2 ^ 32 = z mod 2 ^ 32.
Proof.
  unfold ToInt32.
  rewrite <- (Zminus_mod_idemp_l ((z + 2 ^ 31) mod 2 ^ 32)), Z.mod_mod by lia.
  rewrite Zminus_mod_idemp_l. f_equal. lia.
Qed.

Lemma ToInt32_idemp (z : Z) : ToInt32 (ToInt32 z) = ToInt32 z.
Proof. apply ToInt32_congr, ToInt32_mod. Qed.

Lemma hash_step_polynomial (a : Z) (b : ascii) :
  hash_step a b = ToInt32 (31 * a + charCode b).
Proof.
  unfold hash_step, band, shl. rewrite Z.land_diag, ToInt32_idemp.
  apply ToInt32_congr. rewrite Z.shiftl_mul_pow2 by lia.
  rewrite <- Zplus_mod_idemp_l, <- Zminus_mod_idemp_l, ToInt32_mod.
  rewrite <- (Zmult_mod_idemp_l (ToInt32 a)), ToInt32_mod, Zmult_mod_idemp_l.
  rewrite Zminus_mod_idemp_l, Zplus_mod_idemp_l. f_equal. lia.
Qed.

Lemma fold_left_cons {A B} (f : A → B → A) (b : B) (l : list B) (a : A) :
  fold_left f (b :: l) a = fold_left f l (f a b).
Proof. reflexivity. Qed.

Lemma ToInt32_inv (x y : Z) :
  ToInt32 x = ToInt32 y → x mod 2 ^ 32 = y mod 2 ^ 32.
Proof. intros H. by rewrite <- (ToInt32_mod x), <- (ToInt32_mod y), H. Qed.

Lemma step_mod (M a h c : Z) :
  a mod M = h mod M → (31 * a + c) mod M = (31 * h + c) mod M.
Proof.
  intros Heq. rewrite <- (Zplus_mod_idemp_l (31 * a)), <- (Zmult_mod_idemp_r a), Heq.
  by rewrite Zmult_mod_idemp_r, Zplus_mod_idemp_l.
Qed.

Lemma ToInt32_step (a h c : Z) :
  ToInt32 a = ToInt32 h → ToInt32 (31 * a + c) = ToInt32 (31 * h + c).
Proof. intros H. by apply ToInt32_congr, step_mod, ToInt32_inv. Qed.

Lemma hash_from (word : str) (a h : Z) :
  ToInt32 a = ToInt32 h →
  ToInt32 (fold_left hash_step word a)
  = ToInt32 (fold_left (λ h b, 31 * h + charCode b) word h).
Proof.
  revert a h. induction word as [|b word IH]; intros a h Heq; [exact Heq|].
  rewrite !fold_left_cons. apply IH. rewrite hash_step_polynomial, ToInt32_idemp.
  by apply ToInt32_step.
Qed.

Lemma hash_is_int32 (word : str) : ToInt32 (hash word) = hash word.
Proof.
  unfold hash. induction word as [|b word IH] using rev_ind; [done|].
  rewrite fold_left_app, fold_left_cons. cbn [fold_left].
  rewrite hash_step_polynomial. apply ToInt32_idemp.
Qed.

Lemma total_alter_succ (embedding : list Z) (i : nat) :
  (i < length embedding)%nat → total (alter Z.succ i embedding) = total embedding + 1.
Proof.
  revert i. induction embedding as [|v l IH]; intros [|i] Hi; simpl in Hi; try lia.
  - cbn. lia.
  - change (alter Z.succ (S i) (v :: l)) with (v :: alter Z.succ i l).
    cbn [total foldr]. fold (total (alter Z.succ i l)) (total l).
    rewrite IH by lia. lia.
Qed.

Lemma total_fold_bump (words : list str) (embedding : list Z) :
  length embedding = Z.to_nat dimensions →
  total (fold_left bump words embedding) = total embedding + Z.of_nat (length words).
Proof.
  revert embedding. induction words as [|word words IH]; intros embedding Hlen.
  - simpl. lia.
  - cbn [fold_left length]. rewrite IH by (by rewrite bump_length).
    unfold bump. rewrite total_alter_succ; [lia|].
    pose proof (position_range word). lia.
Qed.

Lemma total_replicate_zero (n : nat) : total (replicate n 0) = 0.
Proof. induction n as [|n IH]; simpl; [done | by rewrite IH]. Qed.

Lemma lower_char_idemp (c : ascii) : lower_char (lower_char c) = lower_char c.
Proof. by destruct c as [[] [] [] [] [] [] [] []]. Qed.

Lemma toLowerCase_idemp (text : str) : toLowerCase (toLowerCase text) = toLowerCase text.
Proof.
  unfold toLowerCase. rewrite map_map. apply map_ext. intros c. apply lower_char_idemp.
Qed.

Lemma bump_comm (embedding : list Z) (w1 w2 : str) :
  bump (bump embedding w1) w2 = bump (bump embedding w2) w1.
Proof.
  unfold bump. destruct (decide (Z.to_nat (position w1) = Z.to_nat (position w2))) as [->|Hne].
  - done.
  - by apply list_alter_alter_ne.
Qed.

Lemma fold_bump_permutation (ws1 ws2 : list str) :
  ws1 ≡ₚ ws2 → ∀ embedding, fold_left bump ws1 embedding = fold_left bump ws2 embedding.
Proof.
  induction 1 as [|w ws1 ws2 _ IH|w1 w2 ws|ws1 ws2 ws3 _ IH1 _ IH2]; intros embedding; simpl.
  - done.
  - apply IH.
  - by rewrite bump_comm.
  - by rewrite IH1.
Qed.

End HashProvider.

(** X5. The hash of a word is the polynomial [h = 31 * h + code] over its
    code units, wrapped to a signed 32-bit integer. *)
Theorem hash_polynomial (word : str) :
  SimpleEmbeddings.hash word = SimpleEmbeddings.ToInt32 (polynomial_31 word)
  ∧ - 2 ^ 31 <= SimpleEmbeddings.hash word < 2 ^ 31.
Proof.
  assert (SimpleEmbeddings.hash word = SimpleEmbeddings.ToInt32 (polynomial_31 word)) as ->.
  { rewrite <- hash_is_int32. by apply hash_from. }
  split; [done | apply ToInt32_range].
Qed.

(** X6. Before the normalization the array has 384 entries, none of them
    negative, and their sum is the number of words of the lower-cased
    text, which is at least one. *)
Theorem counts_total (text : str) :
  length (SimpleEmbeddings.counts text) = 384%nat
  ∧ Forall (λ v, 0 <= v) (SimpleEmbeddings.counts text)
  ∧ total (SimpleEmbeddings.counts text)
    = Z.of_nat (length (split_ws (toLowerCase text)))
  ∧ (1 <= length (split_ws (toLowerCase text)))%nat.
Proof.
  split; [apply counts_length|]. split; [apply counts_counted|]. split.
  - unfold SimpleEmbeddings.counts.
    rewrite total_fold_bump by (by rewrite length_replicate).
    by rewrite total_replicate_zero.
  - unfold split_ws. pose proof (split_ws_from_nonempty false (toLowerCase text)).
    destruct (split_ws_from _ _); [done | simpl; lia].
Qed.

(** X7. The hash embedding does not see the case of the letters: a text
    and its lower-cased form have the same vector. *)
Theorem generateEmbeddings_ignores_case (text : str) :
  SimpleEmbeddings.generateEmbeddings (toLowerCase text)
  = SimpleEmbeddings.generateEmbeddings text.
Proof.
  unfold SimpleEmbeddings.generateEmbeddings, SimpleEmbeddings.counts.
  by rewrite toLowerCase_idemp.
Qed.

(** X8. The hash embedding does not see the order of the words: two texts
    whose lower-cased words are the same up to order have the same
    vector. *)
Theorem generateEmbeddings_ignores_order (t1 t2 : str) :
  split_ws (toLowerCase t1) ≡ₚ split_ws (toLowerCase t2) →
  SimpleEmbeddings.generateEmbeddings t1 = SimpleEmbeddings.generateEmbeddings t2.
Proof.
  intros Hperm. unfold SimpleEmbeddings.generateEmbeddings, SimpleEmbeddings.counts.
  by rewrite (fold_bump_permutation _ _ Hperm).
Qed.

Lemma generateEmbeddings_ignores_order_witness :
  split_ws (toLowerCase (of_string "Birds fly"))
  ≡ₚ split_ws (toLowerCase (of_string "fly birds"))
  ∧ SimpleEmbeddings.generateEmbeddings (of_string "Birds fly")
    = SimpleEmbeddings.generateEmbeddings (of_string "fly birds").
Proof.
  assert (split_ws (toLowerCase (of_string "Birds fly"))
          ≡ₚ split_ws (toLowerCase (of_string "fly birds"))) as H.
  { change (split_ws (toLowerCase (of_string "Birds fly")))
      with [of_string "birds"; of_string "fly"].
    change (split_ws (toLowerCase (of_string "fly birds")))
      with [of_string "fly"; of_string "birds"].
    apply Permutation_swap. }
  split; [exact H|].
  exact (generateEmbeddings_ignores_order (of_string "Birds fly") (of_string "fly birds") H).
Defined.

(** ** The manager and its cache *)

(** X10. [getEmbeddings] never replaces or removes an entry of the cache,
    and never changes the provider. *)
Theorem getEmbeddings_keeps_entries (net : EmbeddingsManager.Network)
    (m : EmbeddingsManager.t) (calls : list str) (text : str)
    (useCache : bool) (key : str) (v : list R) :
  EmbeddingsManager.cache m !! key = Some v →
  EmbeddingsManager.cache
    (EmbeddingsManager.getEmbeddings net m calls text useCache).1.2 !! key = Some v
  ∧ EmbeddingsManager.provider
      (EmbeddingsManager.getEmbeddings net m calls text useCache).1.2
    = EmbeddingsManager.provider m.
Proof.
  intros Hkey. split; [|apply getEmbeddings_provider].
  unfold EmbeddingsManager.getEmbeddings.
  destruct (if useCache then EmbeddingsManager.cache m !! EmbeddingsManager.cacheKey text
            else None) as [cached|] eqn:Hlook; [done|].
  destruct (EmbeddingsManager.generate net (EmbeddingsManager.provider m) calls text)
    as [e|e]; [|done].
  destruct useCache; [|done]. simpl.
  rewrite lookup_insert_ne; [done|]. intros <-. congruence.
Qed.

Lemma getEmbeddings_keeps_entries_witness :
  EmbeddingsManager.cache
    (EmbeddingsManager.getEmbeddings rejecting manager_with_entry [] long_y true).1.2
    !! EmbeddingsManager.cacheKey long_x = Some [1%R]
  ∧ EmbeddingsManager.provider
      (EmbeddingsManager.getEmbeddings rejecting manager_with_entry [] long_y true).1.2
    = EmbeddingsManager.provider manager_with_entry.
Proof.
  apply (getEmbeddings_keeps_entries rejecting manager_with_entry [] long_y true
           (EmbeddingsManager.cacheKey long_x) [1%R]).
  apply lookup_singleton_eq.
Defined.

(** X11. [clearCache] keeps the provider, and the next call of
    [getEmbeddings], for any text, goes to the provider. *)
Theorem clearCache_forgets (net : EmbeddingsManager.Network) (m : EmbeddingsManager.t)
    (calls : list str) (text : str) (useCache : bool) :
  EmbeddingsManager.provider (EmbeddingsManager.clearCache m) = EmbeddingsManager.provider m
  ∧ (EmbeddingsManager.getEmbeddings net (EmbeddingsManager.clearCache m) calls text
       useCache).2
    = calls ++ [text].
Proof.
  split; [done|]. apply getEmbeddings_calls. unfold provider_reached. by destruct useCache.
Qed.

(** X12. With the hash-based provider as the active one, a cache that
    holds hash embeddings only keeps doing so, and the vector returned
    for a text is the hash embedding of a text with the same cache key
    (of the text itself when the call reaches the provider). *)
Theorem getEmbeddings_hash_provider (net : EmbeddingsManager.Network)
    (m : EmbeddingsManager.t) (calls : list str) (text : str) (useCache : bool) :
  EmbeddingsManager.provider m = EmbeddingsManager.SimpleEmbeddings → hash_cache m →
  hash_cache (EmbeddingsManager.getEmbeddings net m calls text useCache).1.2
  ∧ (∃ text', EmbeddingsManager.cacheKey text' = EmbeddingsManager.cacheKey text
              ∧ (EmbeddingsManager.getEmbeddings net m calls text useCache).1.1
                = SimpleEmbeddings.generateEmbeddings text')
  ∧ (provider_reached m text useCache →
     (EmbeddingsManager.getEmbeddings net m calls text useCache).1.1
     = SimpleEmbeddings.generateEmbeddings text).
Proof.
  intros Hp Hc. unfold provider_reached, EmbeddingsManager.getEmbeddings.
  destruct (if useCache then EmbeddingsManager.cache m !! EmbeddingsManager.cacheKey text
            else None) as [cached|] eqn:Hlook.
  - simpl. split; [done|]. split; [|done]. destruct useCache; [|done].
    destruct (Hc _ _ Hlook) as (text' & Hk & ->). by exists text'.
  - rewrite Hp. simpl. split; [|split; [by exists text | done]].
    destruct useCache; [|done]. intros key v. simpl.
    destruct (decide (EmbeddingsManager.cacheKey text = key)) as [<-|Hne].
    + rewrite lookup_insert_eq. intros [= <-]. by exists text.
    + rewrite lookup_insert_ne by done. apply Hc.
Qed.

Lemma getEmbeddings_hash_provider_witness :
  hash_cache (EmbeddingsManager.getEmbeddings rejecting simple_manager [] long_x true).1.2
  ∧ (∃ text', EmbeddingsManager.cacheKey text' = EmbeddingsManager.cacheKey long_x
              ∧ (EmbeddingsManager.getEmbeddings rejecting simple_manager [] long_x true).1.1
                = SimpleEmbeddings.generateEmbeddings text')
  ∧ (provider_reached simple_manager long_x true →
     (EmbeddingsManager.getEmbeddings rejecting simple_manager [] long_x true).1.1
     = SimpleEmbeddings.generateEmbeddings long_x).
Proof.
  apply (getEmbeddings_hash_provider rejecting simple_manager [] long_x true).
  - reflexivity.
  - intros key v H. exfalso. revert H. unfold simple_manager, EmbeddingsManager.new. simpl.
    rewrite lookup_empty. discriminate.
Defined.

(** ** The factory and the module-level manager *)

Section FactoryOutcome.
Import Factory.

(** A manager that comes out of the factory has an empty cache. *)
Lemma createEmbeddingsManager_cache (loads : str → bool) (providerType : ProviderType)
    (apiKey model : option str) (manager : EmbeddingsManager.t) :
  createEmbeddingsManager loads providerType apiKey model = Returns manager →
  EmbeddingsManager.cache manager = ∅.
Proof.
  destruct providerType; simpl.
  - destruct (missing apiKey); intros [= <-]; done.
  - destruct (missing apiKey); intros [= <-]; done.
  - destruct (loads _); intros [= <-]; done.
  - intros [= <-]; done.
Qed.

End FactoryOutcome.

(** X13. [createEmbeddingsManager] throws exactly when the type is
    'openai' or 'cohere' and the key is missing or empty, or when the
    type is 'local' and the model cannot be loaded. Otherwise the
    manager has an empty cache and the name and the dimensions of the
    type asked for. *)
Theorem createEmbeddingsManager_outcome (loads : str → bool)
    (providerType : Factory.ProviderType) (apiKey model : option str) :
  ((∃ e, Factory.createEmbeddingsManager loads providerType apiKey model = Throws e)
   ↔ ((providerType = Factory.openai ∨ providerType = Factory.cohere)
      ∧ Factory.missing apiKey = true)
     ∨ (providerType = Factory.local
        ∧ loads (Factory.or_default model
                   (of_string "sentence-transformers/all-MiniLM-L6-v2"))
          = false))
  ∧ ∀ manager,
      Factory.createEmbeddingsManager loads providerType apiKey model = Returns manager →
      EmbeddingsManager.cache manager = ∅
      ∧ EmbeddingsManager.getProviderName manager = Factory.type_name providerType
      ∧ EmbeddingsManager.getDimensions manager
        = match providerType with
          | Factory.openai => 1536
          | Factory.cohere => 1024
          | Factory.local | Factory.simple => 384
          end.
Proof.
  split.
  - destruct providerType; simpl.
    + destruct (Factory.missing apiKey); split; try (intros [e [=]]); eauto;
        intros [[_ [=]] | [[=] _]].
    + destruct (Factory.missing apiKey); split; try (intros [e [=]]); eauto;
        intros [[_ [=]] | [[=] _]].
    + destruct (loads _); split; try (intros [e [=]]); eauto;
        intros [[[[=]|[=]] _] | [_ [=]]].
    + split; [intros [e [=]] | intros [[[[=]|[=]] _] | [[=] _]]].
  - intros manager. destruct providerType; simpl.
    + destruct (Factory.missing apiKey); intros [= <-]; done.
    + destruct (Factory.missing apiKey); intros [= <-]; done.
    + destruct (loads _); intros [= <-]; done.
    + intros [= <-]; done.
Qed.

(** X14. [initializeEmbeddings] never throws. It installs a manager with
    an empty cache: the one of the factory or, when the factory throws,
    one on the hash-based provider; the next [generateEmbeddings] of any
    text goes to the provider. *)
Theorem initializeEmbeddings_sets_manager (w : Rag.World) (loads : str → bool)
    (providerType : Factory.ProviderType) (apiKey model : option str) (s : Rag.State) :
  ∃ manager,
    Engine.initializeEmbeddings loads providerType apiKey model s
    = (Returns (), Rag.set_manager manager (Rag.calls s) s)
    ∧ Engine.getEmbeddingsManager (Rag.set_manager manager (Rag.calls s) s) = Some manager
    ∧ EmbeddingsManager.cache manager = ∅
    ∧ (Factory.createEmbeddingsManager loads providerType apiKey model = Returns manager
       ∨ ((∃ e, Factory.createEmbeddingsManager loads providerType apiKey model = Throws e)
          ∧ EmbeddingsManager.provider manager = EmbeddingsManager.SimpleEmbeddings))
    ∧ ∀ text,
        Rag.calls
          (Rag.generateEmbeddings w text (Rag.set_manager manager (Rag.calls s) s)).2
        = Rag.calls s ++ [text].
Proof.
  unfold Engine.initializeEmbeddings.
  destruct (Factory.createEmbeddingsManager loads providerType apiKey model)
    as [manager|e] eqn:Hc.
  - exists manager. split; [done|]. split; [done|].
    pose proof (createEmbeddingsManager_cache _ _ _ _ _ Hc) as Hcache.
    split; [done|]. split; [by left|].
    intros text. unfold Rag.generateEmbeddings. simpl.
    pose proof (getEmbeddings_calls (Rag.network w) manager (Rag.calls s) text true) as H.
    destruct (EmbeddingsManager.getEmbeddings _ _ _ _ _) as [[v m'] calls']. simpl in *.
    apply H. unfold provider_reached. rewrite Hcache. apply lookup_empty.
  - eexists. split; [done|]. split; [done|]. split; [done|]. split; [right; eauto|].
    intros text. unfold Rag.generateEmbeddings. simpl.
    pose proof (getEmbeddings_calls (Rag.network w)
                  (EmbeddingsManager.new EmbeddingsManager.SimpleEmbeddings)
                  (Rag.calls s) text true) as H.
    destruct (EmbeddingsManager.getEmbeddings _ _ _ _ _) as [[v m'] calls']. simpl in *.
    apply H. apply lookup_empty.
Qed.

(** X15. When no manager is set, [generateEmbeddings] returns the hash
    embedding of the text after one call of the provider, and the same
    call made again returns the same vector from the cache, without a
    call of the provider; the table of chunks is not touched. *)
Theorem generateEmbeddings_default_twice (w : Rag.World) (text : str) (s : Rag.State) :
  Rag.embeddingsManager s = None →
  ∃ s1,
    Rag.generateEmbeddings w text s
    = (Returns (SimpleEmbeddings.generateEmbeddings text), s1)
    ∧ Rag.calls s1 = Rag.calls s ++ [text]
    ∧ Rag.documentChunks s1 = Rag.documentChunks s
    ∧ ∃ s2,
        Rag.generateEmbeddings w text s1
        = (Returns (SimpleEmbeddings.generateEmbeddings text), s2)
        ∧ Rag.calls s2 = Rag.calls s1.
Proof.
  intros Hnone. unfold Rag.generateEmbeddings at 1. rewrite Hnone.
  rewrite (getEmbeddings_returns _ _ _ _ _ (SimpleEmbeddings.generateEmbeddings text));
    [| apply lookup_empty | done].
  eexists. split; [done|]. split; [done|]. split; [done|].
  unfold Rag.generateEmbeddings. simpl.
  rewrite (getEmbeddings_hit _ _ _ _ (SimpleEmbeddings.generateEmbeddings text));
    [| apply lookup_insert_eq].
  by eexists.
Qed.

Lemma generateEmbeddings_default_twice_witness :
  ∃ s1,
    Rag.generateEmbeddings quiet (of_string "hello") (initial [])
    = (Returns (SimpleEmbeddings.generateEmbeddings (of_string "hello")), s1)
    ∧ Rag.calls s1 = Rag.calls (initial []) ++ [of_string "hello"]
    ∧ Rag.documentChunks s1 = Rag.documentChunks (initial [])
    ∧ ∃ s2,
        Rag.generateEmbeddings quiet (of_string "hello") s1
        = (Returns (SimpleEmbeddings.generateEmbeddings (of_string "hello")), s2)
        ∧ Rag.calls s2 = Rag.calls s1.
Proof.
  apply (generateEmbeddings_default_twice quiet (of_string "hello") (initial [])).
  reflexivity.
Defined.

(** ** The chunks that a search selects *)



(** ** [chunkText] without overlap *)

Section Trim.

Lemma trimStart_suffix (s : str) : trimStart s `suffix_of` s.
Proof.
  induction s as [|c s IH]; simpl; [done|].
  destruct (is_white_space c); [by apply suffix_cons_r | done].
Qed.

Lemma trimStart_head (s : str) (c : ascii) :
  head (trimStart s) = Some c → is_white_space c = false.
Proof.
  induction s as [|x s IH]; simpl; [done|].
  destruct (is_white_space x) eqn:E; [done|]. simpl. by intros [= <-].
Qed.

Lemma trimStart_last (s : str) (c : ascii) :
  last s = Some c → is_white_space c = false → last (trimStart s) = Some c.
Proof.
  induction s as [|x s IH]; simpl; [done|]. intros Hlast Hc.
  destruct (is_white_space x) eqn:E; [|done].
  destruct s as [|y s]; simpl in *; [congruence|]. by apply IH.
Qed.

Lemma trimStart_id (s : str) :
  Forall (λ c, is_white_space c = false) s → trimStart s = s.
Proof. intros H. destruct H as [|c s Hc _]; [done|]. simpl. by rewrite Hc. Qed.

Lemma trimEnd_id (s : str) :
  Forall (λ c, is_white_space c = false) s → trimEnd s = s.
Proof.
  intros H. unfold trimEnd. rewrite trimStart_id, rev_involutive; [done|].
  by apply Forall_rev.
Qed.

Lemma trim_id (s : str) :
  Forall (λ c, is_white_space c = false) s → trim s = s.
Proof. intros H. unfold trim. by rewrite trimStart_id, trimEnd_id. Qed.

Lemma trim_trimmed (s : str) : trimmed (trim s).
Proof.
  unfold trim, trimEnd. split; intros c.
  - rewrite head_rev. intros Hlast.
    destruct (head (trimStart s)) as [h|] eqn:Hh.
    + pose proof (trimStart_head s h Hh) as Hws.
      rewrite (trimStart_last (rev (trimStart s)) h) in Hlast; [congruence | | done].
      by rewrite last_rev.
    + destruct (trimStart s); [done | done].
  - rewrite last_rev. apply trimStart_head.
Qed.

Lemma trim_length (s : str) : len (trim s) <= len s.
Proof.
  unfold trim, trimEnd, len. rewrite length_rev.
  pose proof (suffix_length _ _ (trimStart_suffix (rev (trimStart s)))) as H1.
  pose proof (suffix_length _ _ (trimStart_suffix s)) as H2.
  rewrite length_rev in H1. lia.
Qed.

End Trim.

Section FloatSign.
Import SpecFloat.

Lemma of_Z_not_negative_from_zero (z : Z) : 0 <= z → not_negative (Number.of_Z z).
Proof.
  intros H. destruct (decide (z = 0)) as [->|Hne]; [done|].
  apply of_Z_not_negative. lia.
Qed.

Lemma add_not_negative (x y : spec_float) :
  not_negative x → not_negative y → not_negative (Number.add x y).
Proof.
  destruct x as [sx|sx| |sx mx ex], y as [sy|sy| |sy my ey]; simpl;
    try done; try (intros -> ->; done).
  intros -> ->. unfold Number.add, SFadd, cond_Zopp.
  set (a := (shl_align mx ex (Z.min ex ey)).1).
  set (b := (shl_align my ey (Z.min ex ey)).1).
  change (Z.pos a + Z.pos b) with (Z.pos (a + b)). clearbody a b.
  unfold binary_normalize, binary_round.
  destruct (shl_align _ _ _) as [mz ez]. apply (binary_round_aux_sign false).
Qed.

Lemma past_threshold_none (start chunkSize : Z) :
  0 <= start → 0 < chunkSize → past_threshold (-1) start chunkSize = false.
Proof.
  intros Hs Hc. unfold past_threshold.
  pose proof (add_not_negative _ _ (of_Z_not_negative_from_zero _ Hs)
                (mul_seven_tenths_not_negative _ (of_Z_not_negative _ Hc))) as Hn.
  by destruct (Number.add _ _) as [[]|[]| |[] m e].
Qed.

End FloatSign.

Section Returns.
Variables (text : str) (chunkSize overlap : Z).
Hypothesis Hsize : 0 < chunkSize.
Hypothesis Hoverlap : overlap <= 0.

Lemma window_end_progress (s : Z) :
  0 <= s < len text → s < window_end text chunkSize s <= len text.
Proof. unfold window_end. lia. Qed.

Lemma chunk_loop_returns (fuel : nat) (w : walk) :
  0 <= start w → (Z.to_nat (len text - start w) < fuel)%nat →
  ∃ chunks, chunk_loop fuel text chunkSize overlap w = Some chunks.
Proof.
  revert w. induction fuel as [|fuel IH]; intros w Hstart Hfuel; [lia|].
  simpl. destruct (start w <? len text) eqn:Hlt; [|by eexists].
  apply Z.ltb_lt in Hlt. apply IH; simpl.
  - pose proof (window_end_progress (start w)). lia.
  - pose proof (window_end_progress (start w)). lia.
Qed.

Lemma chunk_loop_Forall (P : str → Prop) (fuel : nat) (w : walk) (result : list str) :
  (∀ s, 0 <= s → P (trim (window_chunk text chunkSize s))) →
  0 <= start w → Forall P (chunks w) →
  chunk_loop fuel text chunkSize overlap w = Some result → Forall P result.
Proof.
  intros HP. revert w. induction fuel as [|fuel IH]; intros w Hstart Hall; [done|].
  simpl. destruct (start w <? len text) eqn:Hlt; [|by intros [= <-]].
  apply Z.ltb_lt in Hlt. apply IH; simpl.
  - pose proof (window_end_progress (start w)). lia.
  - apply Forall_app. split; [done|]. apply Forall_singleton. by apply HP.
Qed.

End Returns.

Lemma window_chunk_length (text : str) (chunkSize s : Z) :
  0 <= s → 0 < chunkSize → len (window_chunk text chunkSize s) <= chunkSize.
Proof.
  intros Hs Hc. pose proof (slice_length_le text s chunkSize Hs Hc) as Hlen.
  unfold window_chunk.
  destruct (window_end text chunkSize s <? len text); [|done].
  destruct (past_threshold _ _ _); [|done].
  pose proof (slice_length_bound (slice text s (window_end text chunkSize s)) 0
                (last_break (slice text s (window_end text chunkSize s)) + 1)).
  unfold len in *. lia.
Qed.

(** X18. With a positive chunk size and an overlap that is not positive,
    [chunkText] comes back: one turn more than the text has characters
    is enough. *)
Theorem chunkText_returns (text : str) (chunkSize overlap : Z) :
  0 < chunkSize → overlap <= 0 →
  ∃ chunks, chunkText (S (Z.to_nat (len text))) text chunkSize overlap = Some chunks.
Proof.
  intros Hc Ho. unfold chunkText.
  destruct (chunk_loop_returns text chunkSize overlap Hc Ho
              (S (Z.to_nat (len text))) (Walk 0 [])) as [chunks ->]; simpl; [lia | lia|].
  by eexists.
Qed.

Lemma chunkText_returns_witness :
  ∃ chunks, chunkText (S (Z.to_nat (len letters_60))) letters_60 100 0 = Some chunks.
Proof. apply (chunkText_returns letters_60 100 0); lia. Defined.

(** X19. Every chunk that [chunkText] returns has more than 50 and at
    most [chunkSize] characters and no white space at either end; with a
    chunk size of 50 or less nothing is returned. *)
Theorem chunkText_chunks (fuel : nat) (text : str) (chunkSize overlap : Z)
    (chunks : list str) :
  0 < chunkSize →
  chunkText fuel text chunkSize overlap = Some chunks →
  Forall (λ chunk, 50 < len chunk <= chunkSize ∧ trimmed chunk) chunks
  ∧ (chunkSize <= 50 → chunks = []).
Proof.
  intros Hc Hret.
  assert (Forall (λ chunk, 50 < len chunk <= chunkSize ∧ trimmed chunk) chunks) as Hall.
  { destruct (Z.le_gt_cases overlap 0) as [Ho|Ho].
    - unfold chunkText in Hret.
      destruct (chunk_loop fuel text chunkSize overlap (Walk 0 [])) as [result|] eqn:Hloop;
        [|done].
      injection Hret as <-.
      apply (chunk_loop_Forall text chunkSize overlap Hc Ho
               (λ chunk, len chunk <= chunkSize ∧ trimmed chunk)) in Hloop; simpl; try done.
      + apply Forall_forall. intros c Hin.
        apply list_elem_of_filter in Hin as [Hlong Hin].
        rewrite Forall_forall in Hloop. destruct (Hloop _ Hin) as [Hle Htrim].
        unfold long_enough in Hlong. apply Z.ltb_lt in Hlong. done.
      + intros s Hs. split; [|apply trim_trimmed].
        pose proof (trim_length (window_chunk text chunkSize s)).
        pose proof (window_chunk_length text chunkSize s Hs Hc). lia.
    - apply chunkText_returns_inv in Hret as [_ ->]; [done | lia]. }
  split; [done|]. intros Hsmall. destruct Hall as [|c l [Hc' _] _]; [done | lia].
Qed.

Lemma chunkText_chunks_witness :
  chunkText 2 letters_60 100 0 = Some [letters_60]
  ∧ Forall (λ chunk, 50 < len chunk <= 100 ∧ trimmed chunk) [letters_60]
  ∧ (100 <= 50 → [letters_60] = []).
Proof.
  assert (chunkText 2 letters_60 100 0 = Some [letters_60]) as H by (vm_compute; reflexivity).
  split; [exact H|].
  apply (chunkText_chunks 2 letters_60 100 0 [letters_60]); [lia | exact H].
Defined.

Section Coverage.
Variables (text : str) (chunkSize : Z).
Hypothesis Hsize : 50 < chunkSize.
Hypothesis Hplain : Forall (λ c, ¬ sentence_end c ∧ is_white_space c = false) text.

Lemma plain_window (s : Z) :
  0 <= s < len text →
  trim (window_chunk text chunkSize s)
  = take (Z.to_nat (window_end text chunkSize s - s)) (drop (Z.to_nat s) text).
Proof.
  intros Hs. unfold len in Hs.
  assert (s <= window_end text chunkSize s <= Z.of_nat (length text))
    by (unfold window_end, len; lia).
  assert (window_chunk text chunkSize s = slice text s (window_end text chunkSize s)) as ->.
  { unfold window_chunk.
    destruct (window_end text chunkSize s <? len text); [|done].
    rewrite no_sentence_end_last_break, past_threshold_none; [done | lia | lia |].
    intros q c Hq. rewrite slice_inside in Hq by lia.
    apply list_elem_of_lookup_2, subseteq_take, subseteq_drop in Hq.
    rewrite Forall_forall in Hplain. by apply Hplain. }
  rewrite slice_inside by lia. apply trim_id.
  apply Forall_take, Forall_drop. eapply Forall_impl; [exact Hplain|]. by intros c [_ ?].
Qed.

(** The loop keeps the chunks long and their concatenation equal to the
    text up to [start]. *)
Lemma plain_loop (fuel : nat) (w : walk) (result : list str) :
  0 <= start w <= len text →
  Forall (λ c, long_enough c = true) (chunks w) →
  concat (chunks w) = take (Z.to_nat (start w)) text →
  chunk_loop fuel text chunkSize 0 w = Some result →
  ∃ tail, concat (filter (λ c, long_enough c = true) result) ++ tail = text
          ∧ len tail <= 50.
Proof.
  revert w. induction fuel as [|fuel IH]; intros w Hstart Hlong Hcat; [done|].
  cbn [chunk_loop]. destruct (start w <? len text) eqn:Hlt.
  - apply Z.ltb_lt in Hlt.
    set (e := window_end text chunkSize (start w)).
    assert (start w < e <= len text) as He by (unfold e, window_end; lia).
    set (piece := trim (window_chunk text chunkSize (start w))).
    set (w' := chunk_step text chunkSize 0 w).
    assert (start w' = e) as Hstart' by (simpl; fold e; lia).
    assert (chunks w' = chunks w ++ [piece]) as Hchunks' by done.
    clearbody w'.
    assert (piece = take (Z.to_nat (e - start w)) (drop (Z.to_nat (start w)) text))
      as Hpiece by (apply plain_window; lia).
    assert (concat (chunks w') = take (Z.to_nat (start w')) text) as Hcat'.
    { rewrite Hchunks', Hstart', concat_app, Hcat, Hpiece. simpl.
      rewrite app_nil_r, take_take_drop. f_equal. lia. }
    assert (len piece = e - start w) as Hlen.
    { rewrite Hpiece. unfold len in *. rewrite length_take, length_drop. lia. }
    destruct (long_enough piece) eqn:Hp.
    + apply IH; [lia | | done]. rewrite Hchunks'.
      apply Forall_app. split; [done|]. by apply Forall_singleton.
    + assert (e = len text) as Hend.
      { unfold long_enough in Hp. apply Z.ltb_ge in Hp. unfold e, window_end in *. lia. }
      destruct fuel as [|fuel]; [done|]. cbn [chunk_loop].
      replace (start w' <? len text) with false by lia. intros [= <-].
      exists piece. rewrite Hchunks', filter_app, filter_cons, Hp. simpl.
      rewrite filter_nil, app_nil_r, filter_all by done.
      split; [|unfold long_enough in Hp; lia].
      rewrite Hcat, Hpiece, take_take_drop. apply take_ge. unfold len in *. lia.
  - apply Z.ltb_ge in Hlt. intros [= <-]. exists [].
    rewrite app_nil_r, filter_all by done. split; [|simpl; unfold len; simpl; lia].
    rewrite Hcat. apply take_ge. unfold len in *. lia.
Qed.

End Coverage.

(** X20. Without overlap, on a text without sentence ends and white
    space, the chunks of [chunkText] are consecutive pieces of the text:
    put together they give the text up to a tail of at most 50
    characters, which the filter drops. *)
Theorem chunkText_covers_plain_text (text : str) (chunkSize : Z) :
  50 < chunkSize →
  Forall (λ c, ¬ sentence_end c ∧ is_white_space c = false) text →
  ∃ chunks tail,
    chunkText (S (Z.to_nat (len text))) text chunkSize 0 = Some chunks
    ∧ concat chunks ++ tail = text
    ∧ len tail <= 50.
Proof.
  intros Hc Hplain. unfold chunkText.
  destruct (chunk_loop_returns text chunkSize 0 ltac:(lia) ltac:(lia)
              (S (Z.to_nat (len text))) (Walk 0 [])) as [result Hloop];
    [simpl; lia | simpl; lia |].
  rewrite Hloop.
  apply (plain_loop text chunkSize Hc Hplain) in Hloop as (tail & Htail & Hlen);
    [| simpl; unfold len; lia | done | done].
  by eexists _, tail.
Qed.

Lemma chunkText_covers_plain_text_witness :
  ∃ chunks tail,
    chunkText (S (Z.to_nat (len letters_120))) letters_120 100 0 = Some chunks
    ∧ concat chunks ++ tail = letters_120
    ∧ len tail <= 50.
Proof.
  apply (chunkText_covers_plain_text letters_120 100); [lia|].
  apply Forall_replicate. split; [|reflexivity].
  intros [H | [H | H]]; discriminate H.
Defined.

(** ** The storing loop of [processDocument] *)

Section StoringLoop.
Import Rag.
Variable w : World.

Lemma insert_row_perm (row : DocumentChunk.t) (rows : list DocumentChunk.t) :
  insert_row row rows ≡ₚ row :: rows.
Proof.
  induction rows as [|r rest IH]; simpl; [done|].
  destruct (key_ltb _ _); [done|]. rewrite IH. apply Permutation_swap.
Qed.

Lemma store_chunks_prefix (documentId : str) (chunks : list str) (i : Z)
    (s s' : State) (r : Outcome unit) :
  store_chunks w documentId chunks i s = (r, s') →
  ∃ stored,
    documentChunks s' ≡ₚ documentChunks s ++ stored
    ∧ map DocumentChunk.content stored = take (length stored) chunks
    ∧ map DocumentChunk.chunkIndex stored = seqZ i (Z.of_nat (length stored))
    ∧ Forall (stored_for documentId) stored
    ∧ match r with
      | Returns _ => length stored = length chunks
      | Throws _ => (length stored < length chunks)%nat
      end.
Proof.
  revert i s. induction chunks as [|chunk rest IH]; intros i s; simpl.
  - intros [= <- <-]. exists []. rewrite app_nil_r.
    split; [done|]. split; [done|]. split; [done|]. split; [constructor | done].
  - unfold bind at 1.
    destruct (generateEmbeddings_returns w chunk s) as (q & m' & calls' & ->).
    unfold bind at 1, fresh_uuid. cbn [tick set_manager next_tick].
    unfold bind at 1, new_Date. cbn [tick set_manager next_tick].
    unfold bind at 1, add, db_operation. cbn [tick documentChunks].
    destruct (db_fault w _) as [e|].
    { intros [= <- <-]. exists []. simpl. rewrite app_nil_r.
      split; [done|]. split; [done|]. split; [done|]. split; [constructor | lia]. }
    destruct (decide _) as [Hdup|Hnew].
    { intros [= <- <-]. exists []. simpl. rewrite app_nil_r.
      split; [done|]. split; [done|]. split; [done|]. split; [constructor | lia]. }
    intros Hrest. apply IH in Hrest as (stored & Hrows & Hcontent & Hindex & Hfor & Hr).
    cbn [documentChunks set_rows next_tick] in Hrows.
    eexists (_ :: stored). split; [|split; [|split; [|split]]].
    + rewrite Hrows, insert_row_perm. apply Permutation_middle.
    + simpl. by rewrite Hcontent.
    + cbn [map length DocumentChunk.chunkIndex]. rewrite Hindex.
      rewrite (seqZ_cons i) by lia. do 2 f_equal; lia.
    + constructor; [|done]. split; [done | by eexists].
    + destruct r; simpl; lia.
Qed.

End StoringLoop.

(** X21. What the body of [processDocument] leaves in the table, once
    [chunkText] has given it chunks. The rows of other documents are
    kept. When it returns, the old rows of the document are gone and
    there is one new row per chunk, with the chunk as content, an
    embedding, and the indices 0, 1, 2, ... in order. When it throws,
    either the deletion failed and the table is as before, or the old
    rows are gone and the new rows are those of a strict prefix of the
    chunks: nothing is rolled back. *)
Theorem ingest_stores_prefix (w : Rag.World) (documentId : str) (chunks : list str)
    (s : Rag.State) :
  let after := Rag.ingest w documentId chunks s in
  let kept := filter (λ row, DocumentChunk.documentId row ≠ documentId)
                (Rag.documentChunks s) in
  ∃ stored,
    map DocumentChunk.content stored = take (length stored) chunks
    ∧ map DocumentChunk.chunkIndex stored = seqZ 0 (Z.of_nat (length stored))
    ∧ Forall (stored_for documentId) stored
    ∧ match after.1 with
      | Returns _ =>
          Rag.documentChunks after.2 ≡ₚ kept ++ stored ∧ length stored = length chunks
      | Throws _ =>
          (Rag.documentChunks after.2 ≡ₚ kept ++ stored
           ∧ (length stored < length chunks)%nat)
          ∨ (stored = [] ∧ Rag.documentChunks after.2 = Rag.documentChunks s)
      end.
Proof.
  intros after kept. subst after kept.
  unfold Rag.ingest, Rag.bind, Rag.delete_where_documentId, Rag.db_operation.
  destruct (Rag.db_fault w (Rag.tick s)) as [e|].
  - exists []. simpl. split; [done|]. split; [done|]. split; [constructor|]. by right.
  - destruct (Rag.store_chunks w documentId chunks 0 _) as [r s'] eqn:Hloop.
    apply store_chunks_prefix in Hloop as (stored & Hrows & Hcontent & Hindex & Hfor & Hr).
    exists stored. split; [done|]. split; [done|]. split; [done|]. simpl.
    destruct r; [done | by left].
Qed.

(** ** [getRelevantContext] *)

Section Context.
Import Engine.
Variable w : Rag.World.

Lemma distinct_elem (seen xs : list str) (x : str) :
  x ∈ distinct seen xs ↔ x ∈ xs ∧ x ∉ seen.
Proof.
  revert seen. induction xs as [|y xs IH]; intros seen; simpl.
  - rewrite elem_of_nil. tauto.
  - destruct (decide (y ∈ seen)) as [Hy|Hy].
    + rewrite IH, elem_of_cons. split; [tauto|]. intros [[->|?] ?]; tauto.
    + rewrite !elem_of_cons, IH, elem_of_cons. split.
      * intros [->|[? ?]]; [tauto|]. split; [tauto|]. tauto.
      * intros [[->|?] ?]; [tauto|]. destruct (decide (x = y)); [tauto|]. tauto.
Qed.

Lemma document_map_other (documents : list UserDocument.t)
    (m : gmap str UserDocument.t) (k : str) :
  k ∉ map UserDocument.id documents →
  fold_left (λ m doc, <[UserDocument.id doc := doc]> m) documents m !! k = m !! k.
Proof.
  revert m. induction documents as [|d r IH]; intros m Hk; simpl; [done|].
  simpl in Hk. rewrite IH by (intros ?; apply Hk; by right).
  rewrite lookup_insert_ne; [done|]. intros E. apply Hk. rewrite E. by left.
Qed.

Lemma document_map_elem (documents : list UserDocument.t)
    (m : gmap str UserDocument.t) (doc : UserDocument.t) :
  NoDup (map UserDocument.id documents) → doc ∈ documents →
  fold_left (λ m doc, <[UserDocument.id doc := doc]> m) documents m
    !! UserDocument.id doc = Some doc.
Proof.
  revert m. induction documents as [|d r IH]; intros m Hnd Hin; simpl.
  - by apply elem_of_nil in Hin.
  - simpl in Hnd. apply NoDup_cons in Hnd as [Hd Hnd].
    apply elem_of_cons in Hin as [->|Hin]; [|by apply IH].
    rewrite document_map_other by done. apply lookup_insert_eq.
Qed.

Lemma find_elem (table : list UserDocument.t) (k : str) (doc : UserDocument.t) :
  document_with table k = Some doc → doc ∈ table ∧ UserDocument.id doc = k.
Proof.
  unfold document_with. induction table as [|d r IH]; simpl; [done|].
  destruct (bool_decide (UserDocument.id d = k)) eqn:E.
  - intros [= <-]. apply bool_decide_eq_true in E. split; [by left | done].
  - intros H. destruct (IH H). split; [by right | done].
Qed.

Lemma find_none (table : list UserDocument.t) (k : str) :
  document_with table k = None → k ∉ map UserDocument.id table.
Proof.
  unfold document_with. induction table as [|d r IH]; simpl.
  - intros _ H. by apply elem_of_nil in H.
  - destruct (bool_decide (UserDocument.id d = k)) eqn:E; [done|].
    apply bool_decide_eq_false in E. intros H Hin.
    apply elem_of_cons in Hin as [->|Hin]; [done | by apply IH].
Qed.

(** The map built from the documents found holds, for the document id of
    a chunk looked up, the document of the table with that id. *)
Lemma document_map_lookup (table : list UserDocument.t) (ids : list str) (k : str) :
  NoDup (map UserDocument.id table) → k ∈ ids →
  document_map (filter (λ doc, UserDocument.id doc ∈ ids) table) !! k
  = document_with table k.
Proof.
  intros Hnd Hk. unfold document_map.
  assert (NoDup (map UserDocument.id (filter (λ doc, UserDocument.id doc ∈ ids) table)))
    as Hnd'.
  { clear Hk. induction table as [|d r IH]; simpl; [constructor|].
    simpl in Hnd. apply NoDup_cons in Hnd as [Hd Hnd]. rewrite filter_cons.
    destruct (decide (UserDocument.id d ∈ ids)); [|by apply IH].
    simpl. apply NoDup_cons. split; [|by apply IH].
    intros Hin. apply Hd. apply list_elem_of_In, in_map_iff in Hin as (x & Hx & Hin).
    apply list_elem_of_In, list_elem_of_filter in Hin as [_ Hin].
    apply list_elem_of_In, in_map_iff. exists x. split; [done|].
    by apply list_elem_of_In. }
  destruct (document_with table k) as [doc|] eqn:Hfind.
  - apply find_elem in Hfind as [Hin <-].
    apply document_map_elem; [done|]. by apply list_elem_of_filter.
  - apply find_none in Hfind. rewrite document_map_other; [apply lookup_empty|].
    intros Hin. apply Hfind.
    apply list_elem_of_In, in_map_iff in Hin as (x & Hx & Hin).
    apply list_elem_of_In, list_elem_of_filter in Hin as [_ Hin].
    apply list_elem_of_In, in_map_iff. exists x. split; [done|].
    by apply list_elem_of_In.
Qed.

Lemma lift_searchChunks (query : str) (maxChunks : Z) (d : Db) :
  ∃ result s',
    Rag.searchChunks w query maxChunks (chunk_side d) = (Returns result, s')
    ∧ Rag.documentChunks s' = Rag.documentChunks (chunk_side d)
    ∧ lift (Rag.searchChunks w query maxChunks) d
      = (Returns result, {| chunk_side := s'; userDocuments := userDocuments d |}).
Proof.
  destruct (searchChunks_returns w query maxChunks (chunk_side d)) as (result & s' & Hs).
  exists result, s'. split; [done|]. split.
  - pose proof (searchChunks_frame w query maxChunks (chunk_side d)) as Hf.
    by rewrite Hs in Hf.
  - unfold lift. by rewrite Hs.
Qed.

End Context.

(** X22. [getRelevantContext] never throws and changes neither table. It
    returns the empty string when the search finds nothing and when the
    lookup of the documents fails. *)
Theorem getRelevantContext_returns (w : Rag.World) (query : str) (maxChunks : Z)
    (d : Engine.Db) :
  ∃ result s' text d',
    Rag.searchChunks w query maxChunks (Engine.chunk_side d) = (Returns result, s')
    ∧ Engine.getRelevantContext w query maxChunks d = (Returns text, d')
    ∧ Engine.userDocuments d' = Engine.userDocuments d
    ∧ Rag.documentChunks (Engine.chunk_side d')
      = Rag.documentChunks (Engine.chunk_side d)
    ∧ (result = [] → text = [])
    ∧ (Rag.db_fault w (Rag.tick s') ≠ None → text = []).
Proof.
  destruct (lift_searchChunks w query maxChunks d) as (result & s' & Hs & Hrows & Hlift).
  exists result, s'. unfold Engine.getRelevantContext, Engine.try_catch, Engine.bind.
  rewrite Hlift. destruct result as [|c result].
  - eexists _, _. split; [done|]. split; [done|]. simpl. by rewrite Hrows.
  - unfold Engine.documents_anyOf, Engine.read_documents. simpl.
    destruct (Rag.db_fault w (Rag.tick s')) as [e|] eqn:Hfault; simpl.
    + eexists _, _. split; [done|]. split; [done|]. simpl. by rewrite Hrows.
    + eexists _, _. split; [done|]. split; [done|]. simpl. by rewrite Hrows.
Qed.

(** X23. When the ids of the documents are distinct and the lookup of the
    documents does not fail, the context is made of one part per chunk
    found, in the order of the search, joined by an empty line; each part
    is [[From: title]], a line break and the content of the chunk, where
    the title is the one of the document of the chunk, or 'Unknown
    Document' when the table has no such document or its title is
    empty. *)
Theorem getRelevantContext_parts (w : Rag.World) (query : str) (maxChunks : Z)
    (d : Engine.Db) :
  NoDup (map UserDocument.id (Engine.userDocuments d)) →
  Rag.db_fault w
    (Rag.tick (Rag.searchChunks w query maxChunks (Engine.chunk_side d)).2) = None →
  ∃ result s' d',
    Rag.searchChunks w query maxChunks (Engine.chunk_side d) = (Returns result, s')
    ∧ Engine.getRelevantContext w query maxChunks d
      = (Returns (context_of (Engine.userDocuments d) result), d').
Proof.
  intros Hnd Hfault.
  destruct (lift_searchChunks w query maxChunks d) as (result & s' & Hs & Hrows & Hlift).
  rewrite Hs in Hfault. simpl in Hfault.
  exists result, s'. unfold Engine.getRelevantContext, Engine.try_catch, Engine.bind.
  rewrite Hlift. destruct result as [|c result]; [by eexists|].
  unfold Engine.documents_anyOf, Engine.read_documents.
  cbn [Engine.chunk_side Engine.userDocuments].
  rewrite Hfault. cbn [Engine.ret]. eexists. split; [done|]. do 2 f_equal.
  unfold context_of. f_equal. apply map_ext_in. intros chunk Hin.
  unfold Engine.context_part. do 2 f_equal.
  rewrite document_map_lookup; [done | done |].
  apply distinct_elem. split; [|apply not_elem_of_nil].
  apply list_elem_of_In, in_map. done.
Qed.

Lemma getRelevantContext_parts_witness :
  ∃ result s' d',
    Rag.searchChunks quiet (of_string "flight") 3
      (Engine.chunk_side (library [empty_document] [vectorless]))
    = (Returns result, s')
    ∧ Engine.getRelevantContext quiet (of_string "flight") 3
        (library [empty_document] [vectorless])
      = (Returns (context_of (Engine.userDocuments (library [empty_document] [vectorless]))
                    result), d').
Proof.
  apply (getRelevantContext_parts quiet (of_string "flight") 3
           (library [empty_document] [vectorless])).
  - apply NoDup_singleton.
  - reflexivity.
Defined.

(** ** [processAllDocuments] *)

Section Batch.
Import Engine.
Variable w : Rag.World.

(** What a call of [processDocument] has done. *)
Lemma processDocument_effect (array_limit : nat) (document : UserDocument.t) (d d' : Db)
    (r : Outcome unit) :
  processDocument w array_limit document d = (r, d') →
  userDocuments d' = userDocuments d
  ∧ match r with
    | Returns _ =>
        UserDocument.content document = []
        ∧ Rag.db_fault w (Rag.tick (chunk_side d)) = None
        ∧ Rag.documentChunks (chunk_side d')
          = filter (λ c, DocumentChunk.documentId c ≠ UserDocument.id document)
              (Rag.documentChunks (chunk_side d))
    | Throws _ => Rag.documentChunks (chunk_side d') = Rag.documentChunks (chunk_side d)
    end.
Proof.
  unfold processDocument, lift.
  destruct (decide (UserDocument.content document = [])) as [Hempty|Hne].
  - rewrite processDocument_empty by done. unfold Rag.try_catch.
    destruct (ingest_nil w (UserDocument.id document) (chunk_side d))
      as [(e & Hfault & ->) | [Hfault ->]]; by intros [= <- <-].
  - rewrite processDocument_content by done. by intros [= <- <-].
Qed.

Lemma process_each_effect (array_limit : nat) (documents : list UserDocument.t)
    (d d' : Db) (r : Outcome unit) :
  process_each w array_limit documents d = (r, d') →
  userDocuments d' = userDocuments d
  ∧ (∀ chunk, chunk ∈ Rag.documentChunks (chunk_side d') →
              chunk ∈ Rag.documentChunks (chunk_side d))
  ∧ (r = Returns () →
     Forall (λ doc, UserDocument.content doc = []) documents
     ∧ ∀ chunk doc, chunk ∈ Rag.documentChunks (chunk_side d') → doc ∈ documents →
         DocumentChunk.documentId chunk ≠ UserDocument.id doc).
Proof.
  revert d. induction documents as [|document rest IH]; intros d; cbn [process_each].
  - intros [= <- <-]. split; [done|]. split; [done|]. intros _.
    split; [constructor|]. intros chunk doc _ Hdoc. by apply elem_of_nil in Hdoc.
  - unfold bind.
    destruct (processDocument w array_limit document d) as [[[]|e] d1] eqn:Hp;
      apply processDocument_effect in Hp.
    + destruct Hp as (Hdocs & Hempty & _ & Hrows).
      intros Hrest. apply IH in Hrest as (Hdocs' & Hsub & Hret).
      split; [congruence|]. split.
      * intros chunk Hin. apply Hsub in Hin. rewrite Hrows in Hin.
        by apply list_elem_of_filter in Hin as [_ Hin].
      * intros Hr. destruct (Hret Hr) as [Hall Hnone]. split; [by constructor|].
        intros chunk doc Hin Hdoc. apply elem_of_cons in Hdoc as [->|Hdoc]; [|by apply Hnone].
        apply Hsub in Hin. rewrite Hrows in Hin.
        by apply list_elem_of_filter in Hin as [Hin _].
    + destruct Hp as (Hdocs & Hrows). intros [= <- <-].
      split; [done|]. split; [by rewrite Hrows | done].
Qed.

(** With a repository that does not fail, the loop deletes the chunks of
    the documents without content that come first and stops at the first
    document with content, on the error of [chunkText]. *)
Lemma process_each_stops (array_limit : nat) (before : list UserDocument.t)
    (document : UserDocument.t) (rest : list UserDocument.t) (d : Db) :
  (∀ n, Rag.db_fault w n = None) →
  Forall (λ doc, UserDocument.content doc = []) before →
  UserDocument.content document ≠ [] →
  ∃ d',
    process_each w array_limit (before ++ document :: rest) d
    = (Throws (of_string "RangeError: Invalid array length"), d')
    ∧ userDocuments d' = userDocuments d
    ∧ Rag.documentChunks (chunk_side d')
      = filter (λ c, DocumentChunk.documentId c ∉ map UserDocument.id before)
          (Rag.documentChunks (chunk_side d)).
Proof.
  intros Hquiet Hbefore Hne. revert d.
  induction Hbefore as [|doc before Hempty _ IH]; intros d.
  - cbn [app process_each]. unfold bind, processDocument, lift.
    rewrite processDocument_content by done. eexists. split; [done|]. split; [done|].
    cbn [chunk_side map]. symmetry. apply filter_all.
    apply Forall_forall. intros c _. apply not_elem_of_nil.
  - cbn [app process_each]. unfold bind at 1, processDocument, lift.
    rewrite processDocument_empty by done. unfold Rag.try_catch.
    destruct (ingest_nil w (UserDocument.id doc) (chunk_side d))
      as [(e & Hfault & _) | [_ ->]]; [by rewrite Hquiet in Hfault|].
    set (d1 := {| chunk_side := Rag.next_tick _; userDocuments := userDocuments d |}).
    destruct (IH d1) as (d' & -> & Hdocs & Hrows).
    exists d'. split; [done|]. split; [done|]. rewrite Hrows. unfold d1.
    cbn [chunk_side Rag.documentChunks Rag.next_tick Rag.set_rows map].
    rewrite list_filter_filter. apply list_filter_iff. intros c.
    rewrite not_elem_of_cons. tauto.
Qed.

End Batch.

(** X24. Whatever the outcome of [processAllDocuments], the table of
    documents is unchanged and no chunk has been added. When it returns
    without an error, every document of the table has an empty content
    and no chunk of any of these documents is left: the call has only
    deleted. *)
Theorem processAllDocuments_adds_nothing (w : Rag.World) (array_limit : nat)
    (d : Engine.Db) :
  let after := Engine.processAllDocuments w array_limit d in
  Engine.userDocuments after.2 = Engine.userDocuments d
  ∧ (∀ chunk, chunk ∈ Rag.documentChunks (Engine.chunk_side after.2) →
              chunk ∈ Rag.documentChunks (Engine.chunk_side d))
  ∧ (after.1 = Returns () →
     Forall (λ doc, UserDocument.content doc = []) (Engine.userDocuments d)
     ∧ ∀ chunk doc,
         chunk ∈ Rag.documentChunks (Engine.chunk_side after.2) →
         doc ∈ Engine.userDocuments d →
         DocumentChunk.documentId chunk ≠ UserDocument.id doc).
Proof.
  intros after. subst after.
  unfold Engine.processAllDocuments, Engine.try_catch, Engine.bind,
    Engine.documents_toArray, Engine.read_documents.
  destruct (Rag.db_fault w (Rag.tick (Engine.chunk_side d))) as [e|].
  - simpl. by split; [|split].
  - destruct (Engine.process_each w array_limit _ _) as [r d1] eqn:Hp.
    apply process_each_effect in Hp. by destruct r as [[]|e].
Qed.

(** X25. When the repository does not fail and a document of the table
    has a content that is not empty, [processAllDocuments] throws the
    RangeError of [chunkText] at the first such document, whatever the
    array limit. By then it has deleted the chunks of the documents
    before that one, which have no content; the documents after it are
    not processed. *)
Theorem processAllDocuments_stops_at_content (w : Rag.World) (array_limit : nat)
    (d : Engine.Db) (before : list UserDocument.t) (document : UserDocument.t)
    (rest : list UserDocument.t) :
  (∀ n, Rag.db_fault w n = None) →
  Engine.userDocuments d = before ++ document :: rest →
  Forall (λ doc, UserDocument.content doc = []) before →
  UserDocument.content document ≠ [] →
  ∃ d',
    Engine.processAllDocuments w array_limit d
    = (Throws (of_string "RangeError: Invalid array length"), d')
    ∧ Engine.userDocuments d' = Engine.userDocuments d
    ∧ Rag.documentChunks (Engine.chunk_side d')
      = filter (λ c, DocumentChunk.documentId c ∉ map UserDocument.id before)
          (Rag.documentChunks (Engine.chunk_side d)).
Proof.
  intros Hquiet Hdocs Hbefore Hne.
  unfold Engine.processAllDocuments, Engine.try_catch, Engine.bind,
    Engine.documents_toArray, Engine.read_documents.
  rewrite Hquiet, Hdocs.
  destruct (process_each_stops w array_limit before document rest
              {| Engine.chunk_side := Rag.next_tick (Engine.chunk_side d);
                 Engine.userDocuments := before ++ document :: rest |}
              Hquiet Hbefore Hne) as (d' & -> & Hd' & Hrows).
  exists d'. split; [done|]. split; [done|]. exact Hrows.
Qed.

Lemma processAllDocuments_stops_at_content_witness :
  ∃ d',
    Engine.processAllDocuments quiet 3
      (library [empty_document; one_letter_document] [vectorless])
    = (Throws (of_string "RangeError: Invalid array length"), d')
    ∧ Engine.userDocuments d'
      = Engine.userDocuments (library [empty_document; one_letter_document] [vectorless])
    ∧ Rag.documentChunks (Engine.chunk_side d')
      = filter (λ c, DocumentChunk.documentId c ∉ map UserDocument.id [empty_document])
          (Rag.documentChunks
             (Engine.chunk_side
                (library [empty_document; one_letter_document] [vectorless]))).
Proof.
  apply (processAllDocuments_stops_at_content quiet 3
           (library [empty_document; one_letter_document] [vectorless])
           [empty_document] one_letter_document []).
  - reflexivity.
  - reflexivity.
  - by constructor.
  - discriminate.
Defined.

(** ** Vector stores *)

Section Batches.
Import VectorStore.
Variable refuses : nat → option Error.
Variable vectors : list Vector.

(** The loop of [addChunks] comes back once the fuel exceeds the number
    of vectors left. *)
Lemma upsert_from_returns (fuel : nat) (i : Z) (ix : Index) :
  0 <= i → (Z.to_nat (Z.of_nat (length vectors) - i) < fuel)%nat →
  ∃ r ix', upsert_from fuel refuses vectors i ix = Some (r, ix')
           ∧ ((∀ n, refuses n = None) → r = Returns ()).
Proof.
  revert i ix. induction fuel as [|fuel IH]; intros i ix Hi Hfuel; [lia|]. simpl.
  destruct (i <? Z.of_nat (length vectors)) eqn:Hlt; [|by eexists _, _].
  apply Z.ltb_lt in Hlt. unfold upsert.
  destruct (refuses (requests ix)) as [e|] eqn:Hr.
  - eexists _, _. split; [done|]. intros Hq. by rewrite Hq in Hr.
  - apply IH; unfold batchSize; lia.
Qed.

(** What the loop has sent when it comes back. *)
Lemma upsert_from_sent (fuel : nat) (i : Z) (ix ix' : Index) (r : Outcome unit) :
  0 <= i → upsert_from fuel refuses vectors i ix = Some (r, ix') →
  ∃ sent,
    upserted ix' = upserted ix ++ sent
    ∧ Forall batch_ok sent
    ∧ concat sent = take (100 * length sent) (drop (Z.to_nat i) vectors)
    ∧ match r with
      | Returns _ =>
          concat sent = drop (Z.to_nat i) vectors
          ∧ (100 * length sent < length (drop (Z.to_nat i) vectors) + 100)%nat
          ∧ requests ix' = (requests ix + length sent)%nat
      | Throws e =>
          (Z.to_nat i + 100 * length sent < length vectors)%nat
          ∧ refuses (requests ix + length sent)%nat = Some e
          ∧ requests ix' = S (requests ix + length sent)
      end.
Proof.
  revert i ix. induction fuel as [|fuel IH]; intros i ix Hi; [done|]. simpl.
  destruct (i <? Z.of_nat (length vectors)) eqn:Hlt.
  - apply Z.ltb_lt in Hlt. unfold upsert.
    destruct (refuses (requests ix)) as [e|] eqn:Hr.
    + intros [= <- <-]. exists []. simpl. rewrite app_nil_r, !Nat.add_0_r.
      split; [done|]. split; [constructor|]. split; [done|].
      split; [lia|]. done.
    + intros Hrest. apply IH in Hrest as (sent & Hup & Hok & Hcat & Hcase);
        [|unfold batchSize; lia].
      cbn [upserted requests] in *.
      rewrite slice_take_drop in Hup by (unfold batchSize; lia).
      replace (Z.to_nat (i + batchSize - i)) with 100%nat in Hup by (unfold batchSize; lia).
      replace (Z.to_nat (i + batchSize)) with (Z.to_nat i + 100)%nat in *
        by (unfold batchSize; lia).
      rewrite <- drop_drop in *.
      set (rest := drop (Z.to_nat i) vectors) in *.
      assert (0 < length rest)%nat as Hrest by (unfold rest; rewrite length_drop; lia).
      exists (take 100 rest :: sent).
      split; [by rewrite Hup, <- app_assoc|].
      split. { constructor; [|done]. unfold batch_ok. rewrite length_take. lia. }
      split.
      { simpl concat. rewrite Hcat. rewrite take_take_drop. f_equal. simpl. lia. }
      destruct r as [[]|e].
      * destruct Hcase as (Hall & Hlen & Hreq). split; [|split].
        -- simpl concat. rewrite Hall. apply take_drop.
        -- rewrite length_drop in Hlen. simpl length. lia.
        -- rewrite Hreq. simpl. lia.
      * destruct Hcase as (Hlen & Href & Hreq). split; [|split].
        -- simpl length. unfold rest in *. lia.
        -- rewrite <- Href. f_equal. simpl. lia.
        -- rewrite Hreq. simpl. lia.
  - apply Z.ltb_ge in Hlt. intros [= <- <-]. exists []. simpl.
    rewrite app_nil_r, Nat.add_0_r, drop_ge by lia.
    split; [done|]. split; [constructor|]. split; [done|]. split; [done|].
    simpl. split; [lia | done].
Qed.

End Batches.

(** X26. [addChunks] comes back: one turn more than there are chunks is
    enough. When the index service refuses no request it returns without
    an error. *)
Theorem addChunks_returns (refuses : nat → option Error) (store : VectorStore.t)
    (chunks : list DocumentChunk.t) (ix : VectorStore.Index) :
  ∃ r ix',
    VectorStore.addChunks (S (length chunks)) refuses store chunks ix = Some (r, ix')
    ∧ ((∀ n, refuses n = None) → r = Returns ()).
Proof.
  destruct store as [|k e i ns]; [by eexists _, _|].
  destruct chunks as [|c chunks]; [by eexists _, _|].
  unfold VectorStore.addChunks.
  apply upsert_from_returns; [lia|]. rewrite length_map. lia.
Qed.

(** X27. The batches that [addChunks] of the Pinecone store has sent when
    it comes back. Each has between 1 and 100 vectors, and together they
    are the vectors of the first chunks, in order. On a normal return
    they are the vectors of all the chunks, in ceil(n / 100) requests.
    When a request is refused the error is thrown at once: the batches
    sent before stay in the index and the rest is not sent. *)
Theorem addChunks_batches (fuel : nat) (refuses : nat → option Error)
    (apiKey environment indexName namespace : str)
    (chunks : list DocumentChunk.t) (ix ix' : VectorStore.Index) (r : Outcome unit) :
  VectorStore.addChunks fuel refuses
    (VectorStore.PineconeVectorStore apiKey environment indexName namespace) chunks ix
  = Some (r, ix') →
  ∃ sent,
    VectorStore.upserted ix' = VectorStore.upserted ix ++ sent
    ∧ Forall batch_ok sent
    ∧ concat sent = take (100 * length sent) (map VectorStore.to_vector chunks)
    ∧ match r with
      | Returns _ =>
          concat sent = map VectorStore.to_vector chunks
          ∧ Z.of_nat (length sent) = (Z.of_nat (length chunks) + 99) / 100
          ∧ VectorStore.requests ix' = (VectorStore.requests ix + length sent)%nat
      | Throws e =>
          (100 * length sent < length chunks)%nat
          ∧ refuses (VectorStore.requests ix + length sent)%nat = Some e
          ∧ VectorStore.requests ix' = S (VectorStore.requests ix + length sent)
      end.
Proof.
  unfold VectorStore.addChunks. destruct chunks as [|c chunks].
  - intros [= <- <-]. exists []. simpl. rewrite app_nil_r, Nat.add_0_r.
    split; [done|]. split; [constructor|]. done.
  - intros Hloop. apply upsert_from_sent in Hloop as (sent & Hup & Hok & Hcat & Hcase); [|lia].
    change (Z.to_nat 0) with 0%nat in *. rewrite drop_0 in *.
    exists sent. split; [done|]. split; [done|]. split; [done|].
    destruct r as [[]|e].
    + destruct Hcase as (Hall & Hlen & Hreq). split; [done|]. split; [|done].
      assert (length (map VectorStore.to_vector (c :: chunks)) ≤ 100 * length sent)%nat.
      { rewrite <- Hall, Hcat, length_take. lia. }
      rewrite length_map in *.
      apply Z.div_unique with
        (r := Z.of_nat (length (c :: chunks)) + 99 - 100 * Z.of_nat (length sent)); lia.
    + destruct Hcase as (Hlen & Href & Hreq). rewrite length_map in Hlen. done.
Qed.

Lemma addChunks_batches_witness :
  VectorStore.addChunks 3 second_request_refused pinecone chunks_150 no_index
  = Some (Throws (of_string "Pinecone API error: Bad Gateway"),
          {| VectorStore.upserted := [take 100 (map VectorStore.to_vector chunks_150)];
             VectorStore.requests := 2 |})
  ∧ ∃ sent,
      [take 100 (map VectorStore.to_vector chunks_150)] = [] ++ sent
      ∧ Forall batch_ok sent
      ∧ concat sent = take (100 * length sent) (map VectorStore.to_vector chunks_150)
      ∧ (100 * length sent < length chunks_150)%nat
      ∧ second_request_refused (0 + length sent)%nat
        = Some (of_string "Pinecone API error: Bad Gateway")
      ∧ 2%nat = S (0 + length sent).
Proof.
  assert (VectorStore.addChunks 3 second_request_refused pinecone chunks_150 no_index
          = Some (Throws (of_string "Pinecone API error: Bad Gateway"),
                  {| VectorStore.upserted := [take 100 (map VectorStore.to_vector chunks_150)];
                     VectorStore.requests := 2 |})) as H by (vm_compute; reflexivity).
  split; [exact H|].
  exact (addChunks_batches 3 second_request_refused _ _ _ _ chunks_150 no_index _ _ H).
Defined.

(** X28. [createVectorStoreManager] throws exactly when the type is
    'pinecone' and the key, the environment or the index name is missing
    or empty. Otherwise the store is of the type asked for; a Pinecone
    store holds the three values given, none of them empty, and the
    namespace given or, when none is given, 'default'. *)
Theorem createVectorStoreManager_outcome (storeType : VectorStore.StoreType)
    (config : option VectorStore.Config) :
  ((∃ e, VectorStore.createVectorStoreManager storeType config = Throws e)
   ↔ storeType = VectorStore.pinecone_store
     ∧ (Factory.missing (VectorStore.field config VectorStore.apiKey) = true
        ∨ Factory.missing (VectorStore.field config VectorStore.environment) = true
        ∨ Factory.missing (VectorStore.field config VectorStore.indexName) = true))
  ∧ ∀ store, VectorStore.createVectorStoreManager storeType config = Returns store →
      match store with
      | VectorStore.LocalVectorStore => storeType = VectorStore.local_store
      | VectorStore.PineconeVectorStore apiKey environment indexName namespace =>
          storeType = VectorStore.pinecone_store
          ∧ apiKey ≠ [] ∧ environment ≠ [] ∧ indexName ≠ []
          ∧ VectorStore.field config VectorStore.apiKey = Some apiKey
          ∧ VectorStore.field config VectorStore.environment = Some environment
          ∧ VectorStore.field config VectorStore.indexName = Some indexName
          ∧ namespace
            = match VectorStore.field config VectorStore.namespace with
              | Some given => given
              | None => of_string "default"
              end
      end.
Proof.
  unfold VectorStore.createVectorStoreManager. destruct storeType.
  - split; [|by intros store [= <-]]. split; [intros [e [=]] | intros [[=] _]].
  - destruct (VectorStore.field config VectorStore.apiKey) as [[|a k]|];
      destruct (VectorStore.field config VectorStore.environment) as [[|b e]|];
      destruct (VectorStore.field config VectorStore.indexName) as [[|c i]|]; simpl;
      (split; [split; [intros _; split; [done|]; auto | intros _; eauto] | by intros store [=]])
      || (split; [split; [intros [? [=]] | intros [_ [[=]|[[=]|[=]]]]] |
                 intros store [= <-]; done]).
Qed.

(** X29. Round trip between chunks and vectors of the index. A match
    turned into a chunk and back is the same vector. A chunk turned into
    a vector and back is the same chunk exactly when it has embeddings: a
    chunk without embeddings comes back with the empty array as its
    embeddings. *)
Theorem vector_round_trip (chunk : DocumentChunk.t) (found : VectorStore.Vector) :
  VectorStore.to_vector (VectorStore.from_match found) = found
  ∧ (VectorStore.from_match (VectorStore.to_vector chunk) = chunk
     ↔ is_Some (DocumentChunk.embeddings chunk))
  ∧ (DocumentChunk.embeddings chunk = None →
     DocumentChunk.embeddings (VectorStore.from_match (VectorStore.to_vector chunk))
     = Some []).
Proof.
  split; [by destruct found|]. destruct chunk as [i d c [v|] k t]; simpl.
  - split; [|done]. split; [by eexists | done].
  - split; [|done]. unfold VectorStore.from_match, VectorStore.to_vector. simpl.
    split; [intros [=] | by intros [? [=]]].
Qed.

(** X30. A search in a Pinecone store made by [createVectorStoreManager].
    The manager of embeddings is made anew for the search, so the
    embedding provider is called for every query, and the check of the
    key cannot fail. The vector sent to the index is the answer of the
    provider or, when the provider fails, the hash embedding of the
    query. One request goes to the index: its matches are returned as
    chunks, or its error is thrown. *)
Theorem pinecone_search_of_factory_store (config : option VectorStore.Config)
    (store : VectorStore.t) (loads : str → bool) (net : EmbeddingsManager.Network)
    (answers : nat → list R → Z → str → Outcome (list VectorStore.Vector))
    (query : str) (limit : Z) (calls : list str) (ix : VectorStore.Index) :
  VectorStore.createVectorStoreManager VectorStore.pinecone_store config = Returns store →
  ∃ apiKey environment indexName namespace vector,
    store = VectorStore.PineconeVectorStore apiKey environment indexName namespace
    ∧ vector
      = match net (EmbeddingsManager.OpenAIEmbeddings apiKey
                     (of_string "text-embedding-3-small")) calls query with
        | Returns embeddings => embeddings
        | Throws _ => SimpleEmbeddings.generateEmbeddings query
        end
    ∧ VectorStore.searchChunks loads net answers store query limit (calls, ix)
      = (match answers (VectorStore.requests ix) vector limit namespace with
         | Returns matches => Returns (map VectorStore.from_match matches)
         | Throws e => Throws e
         end,
         (calls ++ [query],
          {| VectorStore.upserted := VectorStore.upserted ix;
             VectorStore.requests := S (VectorStore.requests ix) |})).
Proof.
  unfold VectorStore.createVectorStoreManager.
  destruct (_ || _ || _) eqn:Hmiss; [done|]. intros [= <-].
  apply orb_false_elim in Hmiss as [Hmiss _]. apply orb_false_elim in Hmiss as [Hkey _].
  destruct (VectorStore.field config VectorStore.apiKey) as [[|a k]|]; try done.
  eexists _, _, _, _, _. split; [done|]. split; [done|].
  unfold VectorStore.searchChunks. cbn [Factory.or_default Factory.createEmbeddingsManager
    Factory.missing].
  unfold EmbeddingsManager.getEmbeddings, EmbeddingsManager.new. cbn [EmbeddingsManager.cache
    EmbeddingsManager.provider EmbeddingsManager.generate].
  rewrite lookup_empty.
  destruct (net _ calls query) as [v|e]; by destruct (answers _ _ _ _).
Qed.

Lemma pinecone_search_of_factory_store_witness :
  VectorStore.createVectorStoreManager VectorStore.pinecone_store (Some pinecone_config)
  = Returns pinecone
  ∧ ∃ apiKey environment indexName namespace vector,
      pinecone = VectorStore.PineconeVectorStore apiKey environment indexName namespace
      ∧ vector
        = match rejecting (EmbeddingsManager.OpenAIEmbeddings apiKey
                             (of_string "text-embedding-3-small")) [] (of_string "flight") with
          | Returns embeddings => embeddings
          | Throws _ => SimpleEmbeddings.generateEmbeddings (of_string "flight")
          end
      ∧ VectorStore.searchChunks (λ _, false) rejecting (λ _ _ _ _, Returns []) pinecone
          (of_string "flight") 3 ([], no_index)
        = (match (λ _ _ _ _, Returns []) (VectorStore.requests no_index) vector 3 namespace with
           | Returns matches => Returns (map VectorStore.from_match matches)
           | Throws e => Throws e
           end,
           ([] ++ [of_string "flight"],
            {| VectorStore.upserted := VectorStore.upserted no_index;
               VectorStore.requests := S (VectorStore.requests no_index) |})).
Proof.
  split; [reflexivity|].
  apply (pinecone_search_of_factory_store (Some pinecone_config)). reflexivity.
Defined.
